(** * A shallow embedding of the query cache of react-query-from-scratch

    The development follows the latest revision of the [QueryCache] class
    (src/lib/use-query.ts, the class that has [directQuery] and
    [backgroundQuery]), its helpers [handlePromise] and [getDifferenceInMs],
    the constants of src/lib/constants.ts, and the [mutate] function of the
    [useMutation] hook (src/lib/use-mutation.ts).

    The cache object is single threaded.  An [async] method is embedded as
    its synchronous prefix, which runs up to the first [await] and leaves a
    suspended [Task] behind, and a function for the rest of the method body,
    run when the awaited promise settles ([finallyCb] first, then the code
    after the [await]).  The JavaScript host (clock, timers, promise
    identities) is part of the [World].

    Subscriber callbacks and fetch functions are names: calling one is an
    event of the trace.  What a subscriber does when it is called is outside
    the cache and is not modelled; a fetch function hands back a fresh
    promise each time it is called, and the host decides later how that
    promise settles. *)

From stdpp Require Import gmap strings list fin_maps pretty.
From Stdlib Require Import ZArith.

Local Open Scope Z_scope.

(** ** constants.ts *)

Definition DEFAULT_STALE_TIME : Z := 0.
Definition FORCE_STALE_TIME : Z := -1.
Definition ONE_SECOND_IN_MS : Z := 1000.
Definition ONE_MINUTE_IN_MS : Z := 60 * ONE_SECOND_IN_MS.
Definition DEFAULT_GC_TIME : Z := 5 * ONE_MINUTE_IN_MS.
Definition FIRST_FETCH_SUCCESS_BACKGROUND_FETCH_BUFFER_WINDOW_MS : Z := 250.

(** ** JavaScript values

    [TData] is a type parameter of the source; the code inspects cached data
    only through [=== undefined], [!== undefined] and truthiness, so data is
    embedded as a small universe of JavaScript values (numbers are integers,
    objects are opaque references). *)

Inductive Value :=
| VUndefined
| VNull
| VBool (b : bool)
| VNum (n : Z)
| VStr (s : string)
| VObj (ref : nat).

#[global] Instance Value_eq_dec : EqDecision Value.
Proof. solve_decision. Defined.

(** ToBoolean of the language: [undefined], [null], [false], [0] and the
    empty string are falsy. *)
Definition truthy (v : Value) : bool :=
  match v with
  | VUndefined | VNull => false
  | VBool b => b
  | VNum n => negb (n =? 0)
  | VStr s => negb (String.eqb s "")
  | VObj _ => true
  end.

(** [String(v)] *)
Definition js_String (v : Value) : string :=
  match v with
  | VUndefined => "undefined"
  | VNull => "null"
  | VBool true => "true"
  | VBool false => "false"
  | VNum n => pretty n
  | VStr s => s
  | VObj _ => "[object Object]"
  end.

Definition is_nullish (v : Value) : bool :=
  match v with
  | VUndefined | VNull => true
  | _ => false
  end.

Record JsError := mkError { message : string }.

#[global] Instance JsError_eq_dec : EqDecision JsError.
Proof. solve_decision. Defined.

(** What a rejected promise carries: an [Error] object or any other value. *)
Inductive Thrown :=
| ThrownError (e : JsError)
| ThrownValue (v : Value).

(** [error instanceof Error ? error : new Error(String(error))] *)
Definition coerceError (t : Thrown) : JsError :=
  match t with
  | ThrownError e => e
  | ThrownValue v => mkError (js_String v)
  end.

(** How an awaited promise settles. *)
Inductive Settlement :=
| Resolves (d : Value)
| Rejects (t : Thrown).

(** How the promise returned by an [async] method settles. *)
Inductive Completion :=
| Fulfilled
| Rejected (e : JsError).

(** utils.ts *)
Definition getDifferenceInMs (startTime endTime : Z) : Z := endTime - startTime.

(** [handlePromise] without its [finallyCb], which the callers below run
    first: the pair [[result, null]] or [[null, Error]]. *)
Definition handlePromise (s : Settlement) : Value * option JsError :=
  match s with
  | Resolves result => (result, None)
  | Rejects t => (VNull, Some (coerceError t))
  end.

(** ** query-types.ts *)

Inductive Status := Idle | Loading | Fetching | FirstSuccess | Success | Error.

#[global] Instance Status_eq_dec : EqDecision Status.
Proof. solve_decision. Defined.

Record QueryState := mkState {
  status : Status;
  data : Value;
  error : option JsError;
  lastUpdatedAt : Z
}.

(** Functions are compared by identity in the source (callbacks in a [Set],
    the same [queryFn] mock in the tests): they are embedded as names. *)
Definition QueryFn := nat.
Definition Callback := nat.
Definition Promise := nat.
Definition TimerId := nat.

Record CacheEntry := mkEntry {
  state : QueryState;
  queryFn : option QueryFn
}.

(** A suspended [directQuery] or [backgroundQuery]: the local variables the
    rest of the body still reads. *)
Inductive Task :=
| DirectTask (queryKey : string) (fn : QueryFn) (entry : option CacheEntry)
| BackgroundTask (queryKey : string) (fn : QueryFn) (entry : CacheEntry)
    (prevLastUpdatedAt : Z).

(** What an observer of the run sees: a subscriber callback being called, and
    a fetch function being invoked (returning promise [p]). *)
Inductive Event :=
| Notified (queryKey : string) (cb : Callback)
| QueryFnCalled (queryKey : string) (fn : QueryFn) (p : Promise).

#[global] Instance Event_eq_dec : EqDecision Event.
Proof. solve_decision. Defined.

(** ** The cache object and its host *)

Record World := mkWorld {
  (* fields of the QueryCache object *)
  cache : gmap string CacheEntry;
  promisesInFlight : gmap string Promise;
  subscribers : gmap string (list Callback);
  gcTimeouts : gmap string TimerId;
  gcQueue : gset string;
  gcTime : Z;
  staleTime : Z;
  (* the host: Date.now(), pending setTimeout callbacks (each one the GC
     closure of a key, with its due time), fresh identities, suspended
     method bodies by the promise they await, and the observable trace *)
  clock : Z;
  timers : gmap TimerId (Z * string);
  nextTimer : TimerId;
  nextPromise : Promise;
  awaiting : gmap Promise Task;
  trace : list Event
}.

(** [new QueryCache(config)] at host time [t]; timer identities start at 1,
    as the host's do. *)
Definition newQueryCache (config_gcTime config_staleTime : option Z) (t : Z) : World :=
  {| cache := ∅; promisesInFlight := ∅; subscribers := ∅; gcTimeouts := ∅;
     gcQueue := ∅;
     gcTime := default DEFAULT_GC_TIME config_gcTime;
     staleTime := default DEFAULT_STALE_TIME config_staleTime;
     clock := t; timers := ∅; nextTimer := 1%nat; nextPromise := 0%nat;
     awaiting := ∅; trace := [] |}.

Definition with_cache (f : gmap string CacheEntry → gmap string CacheEntry) (w : World) : World :=
  {| cache := f (cache w); promisesInFlight := promisesInFlight w;
     subscribers := subscribers w; gcTimeouts := gcTimeouts w;
     gcQueue := gcQueue w; gcTime := gcTime w; staleTime := staleTime w;
     clock := clock w; timers := timers w; nextTimer := nextTimer w;
     nextPromise := nextPromise w; awaiting := awaiting w; trace := trace w |}.

Definition with_promisesInFlight (f : gmap string Promise → gmap string Promise) (w : World) : World :=
  {| cache := cache w; promisesInFlight := f (promisesInFlight w);
     subscribers := subscribers w; gcTimeouts := gcTimeouts w;
     gcQueue := gcQueue w; gcTime := gcTime w; staleTime := staleTime w;
     clock := clock w; timers := timers w; nextTimer := nextTimer w;
     nextPromise := nextPromise w; awaiting := awaiting w; trace := trace w |}.

Definition with_subscribers (f : gmap string (list Callback) → gmap string (list Callback)) (w : World) : World :=
  {| cache := cache w; promisesInFlight := promisesInFlight w;
     subscribers := f (subscribers w); gcTimeouts := gcTimeouts w;
     gcQueue := gcQueue w; gcTime := gcTime w; staleTime := staleTime w;
     clock := clock w; timers := timers w; nextTimer := nextTimer w;
     nextPromise := nextPromise w; awaiting := awaiting w; trace := trace w |}.

Definition with_gcTimeouts (f : gmap string TimerId → gmap string TimerId) (w : World) : World :=
  {| cache := cache w; promisesInFlight := promisesInFlight w;
     subscribers := subscribers w; gcTimeouts := f (gcTimeouts w);
     gcQueue := gcQueue w; gcTime := gcTime w; staleTime := staleTime w;
     clock := clock w; timers := timers w; nextTimer := nextTimer w;
     nextPromise := nextPromise w; awaiting := awaiting w; trace := trace w |}.

Definition with_gcQueue (f : gset string → gset string) (w : World) : World :=
  {| cache := cache w; promisesInFlight := promisesInFlight w;
     subscribers := subscribers w; gcTimeouts := gcTimeouts w;
     gcQueue := f (gcQueue w); gcTime := gcTime w; staleTime := staleTime w;
     clock := clock w; timers := timers w; nextTimer := nextTimer w;
     nextPromise := nextPromise w; awaiting := awaiting w; trace := trace w |}.

Definition with_clock (f : Z → Z) (w : World) : World :=
  {| cache := cache w; promisesInFlight := promisesInFlight w;
     subscribers := subscribers w; gcTimeouts := gcTimeouts w;
     gcQueue := gcQueue w; gcTime := gcTime w; staleTime := staleTime w;
     clock := f (clock w); timers := timers w; nextTimer := nextTimer w;
     nextPromise := nextPromise w; awaiting := awaiting w; trace := trace w |}.

Definition with_timers (f : gmap TimerId (Z * string) → gmap TimerId (Z * string)) (w : World) : World :=
  {| cache := cache w; promisesInFlight := promisesInFlight w;
     subscribers := subscribers w; gcTimeouts := gcTimeouts w;
     gcQueue := gcQueue w; gcTime := gcTime w; staleTime := staleTime w;
     clock := clock w; timers := f (timers w); nextTimer := nextTimer w;
     nextPromise := nextPromise w; awaiting := awaiting w; trace := trace w |}.

Definition with_nextTimer (f : TimerId → TimerId) (w : World) : World :=
  {| cache := cache w; promisesInFlight := promisesInFlight w;
     subscribers := subscribers w; gcTimeouts := gcTimeouts w;
     gcQueue := gcQueue w; gcTime := gcTime w; staleTime := staleTime w;
     clock := clock w; timers := timers w; nextTimer := f (nextTimer w);
     nextPromise := nextPromise w; awaiting := awaiting w; trace := trace w |}.

Definition with_nextPromise (f : Promise → Promise) (w : World) : World :=
  {| cache := cache w; promisesInFlight := promisesInFlight w;
     subscribers := subscribers w; gcTimeouts := gcTimeouts w;
     gcQueue := gcQueue w; gcTime := gcTime w; staleTime := staleTime w;
     clock := clock w; timers := timers w; nextTimer := nextTimer w;
     nextPromise := f (nextPromise w); awaiting := awaiting w; trace := trace w |}.

Definition with_awaiting (f : gmap Promise Task → gmap Promise Task) (w : World) : World :=
  {| cache := cache w; promisesInFlight := promisesInFlight w;
     subscribers := subscribers w; gcTimeouts := gcTimeouts w;
     gcQueue := gcQueue w; gcTime := gcTime w; staleTime := staleTime w;
     clock := clock w; timers := timers w; nextTimer := nextTimer w;
     nextPromise := nextPromise w; awaiting := f (awaiting w); trace := trace w |}.

Definition with_trace (f : list Event → list Event) (w : World) : World :=
  {| cache := cache w; promisesInFlight := promisesInFlight w;
     subscribers := subscribers w; gcTimeouts := gcTimeouts w;
     gcQueue := gcQueue w; gcTime := gcTime w; staleTime := staleTime w;
     clock := clock w; timers := timers w; nextTimer := nextTimer w;
     nextPromise := nextPromise w; awaiting := awaiting w; trace := f (trace w) |}.

(** ** A state monad over the world *)

Definition M (A : Type) : Type := World → A * World.

Definition ret {A} (a : A) : M A := λ w, (a, w).
Definition bind {A B} (c : M A) (k : A → M B) : M B :=
  λ w, let (a, w') := c w in k a w'.
Definition gets {A} (f : World → A) : M A := λ w, (f w, w).
Definition modify (f : World → World) : M unit := λ w, (tt, f w).
Definition exec {A} (c : M A) (w : World) : World := snd (c w).
Definition eval {A} (c : M A) (w : World) : A := fst (c w).

(** stdpp's monad notations ([x ← c; k] and [c;; k]) are used for it. *)
#[global] Instance M_ret : MRet M := @ret.
#[global] Instance M_bind : MBind M := λ A B k c, bind c k.

(** ** The host *)

Definition Date_now : M Z := gets clock.

Definition setTimeout (queryKey : string) (delay : Z) : M TimerId :=
  now ← Date_now;
  id ← gets nextTimer;
  modify (with_timers <[id := (now + delay, queryKey)]>);;
  modify (with_nextTimer S);;
  mret id.

Definition clearTimeout (id : TimerId) : M unit :=
  modify (with_timers (delete id)).

(** Calling a fetch function starts the request and hands back a fresh
    promise. *)
Definition call_queryFn (queryKey : string) (fn : QueryFn) : M Promise :=
  p ← gets nextPromise;
  modify (with_nextPromise S);;
  modify (with_trace (λ t, t ++ [QueryFnCalled queryKey fn p]));;
  mret p.

(** ** QueryCache *)

(** A JavaScript [Set] of callbacks: insertion ordered, without duplicates. *)
Definition Set_add (cb : Callback) (s : list Callback) : list Callback :=
  if decide (cb ∈ s) then s else s ++ [cb].

Definition Set_delete (cb : Callback) (s : list Callback) : list Callback :=
  filter (λ c, c ≠ cb) s.

Definition subscribe (queryKey : string) (callback : Callback) : M unit :=
  subs ← gets (λ w, default [] (subscribers w !! queryKey));
  modify (with_subscribers <[queryKey := Set_add callback subs]>).

Definition getSubscriberCount (queryKey : string) : M nat :=
  gets (λ w, match subscribers w !! queryKey with
             | Some s => length s
             | None => 0%nat
             end).

(** The closure handed to [setTimeout] by [scheduleGC]. *)
Definition gcCallback (queryKey : string) : M unit :=
  modify (with_cache (delete queryKey));;
  modify (with_promisesInFlight (delete queryKey));;
  modify (with_subscribers (delete queryKey));;
  modify (with_gcTimeouts (delete queryKey)).

Definition scheduleGC (queryKey : string) : M unit :=
  existingTimeout ← gets (λ w, gcTimeouts w !! queryKey);
  match existingTimeout with
  | Some id => if decide (id = 0%nat) then mret tt else clearTimeout id
  | None => mret tt
  end;;
  delay ← gets gcTime;
  timeout ← setTimeout queryKey delay;
  modify (with_gcTimeouts <[queryKey := timeout]>).

Definition unsubscribe (queryKey : string) (callback : Callback) : M unit :=
  subs ← gets (λ w, subscribers w !! queryKey);
  match subs with
  | Some s =>
      (* the Set held by the map is updated in place *)
      modify (with_subscribers <[queryKey := Set_delete callback s]>);;
      n ← getSubscriberCount queryKey;
      if decide (n = 0%nat) then
        modify (with_subscribers (delete queryKey));;
        modify (with_gcQueue (λ q, {[queryKey]} ∪ q));;
        scheduleGC queryKey
      else mret tt
  | None => mret tt
  end.

Definition getState (queryKey : string) : M (option QueryState) :=
  gets (λ w, state <$> cache w !! queryKey).

Definition getCacheEntry (queryKey : string) : M (option CacheEntry) :=
  gets (λ w, cache w !! queryKey).

Definition clear : M unit :=
  modify (with_cache (λ _, ∅));;
  modify (with_promisesInFlight (λ _, ∅));;
  modify (with_subscribers (λ _, ∅));;
  modify (with_gcTimeouts (λ _, ∅));;
  modify (with_gcQueue (λ _, ∅)).

Definition hasQuery (queryKey : string) : M bool :=
  gets (λ w, bool_decide (is_Some (cache w !! queryKey))).

Definition set (queryKey : string) (st : QueryState) (fn : option QueryFn) : M unit :=
  modify (with_cache <[queryKey := mkEntry st fn]>).

Definition notifySubscribers (queryKey : string) : M unit :=
  subs ← gets (λ w, subscribers w !! queryKey);
  match subs with
  | Some s => modify (with_trace (λ t, t ++ (Notified queryKey <$> s)))
  | None => mret tt
  end.

Definition setAndNotifySubscribers (queryKey : string) (st : QueryState)
    (fn : option QueryFn) : M unit :=
  set queryKey st fn;;
  notifySubscribers queryKey.

Definition setData (queryKey : string) (d : Value) : M unit :=
  entry ← gets (λ w, cache w !! queryKey);
  now ← Date_now;
  setAndNotifySubscribers queryKey (mkState Success d None now) (entry ≫= queryFn).

(** [entry?.state.data] and [entry?.state.status] *)
Definition opt_data (entry : option CacheEntry) : Value :=
  match entry with
  | Some e => data (state e)
  | None => VUndefined
  end.

Definition opt_status (entry : option CacheEntry) : option Status :=
  status ∘ state <$> entry.

(** [await handlePromise({ promise, finallyCb })]: the method body is
    suspended on [promise]; [None] stands for a method that ran to its end. *)
Definition await (promise : Promise) (rest : Task) : M (option Promise) :=
  modify (with_awaiting <[promise := rest]>);;
  mret (Some promise).

Definition backgroundQuery (queryKey : string) (fn : QueryFn) : M (option Promise) :=
  promiseInFlight ← gets (λ w, promisesInFlight w !! queryKey);
  entry ← gets (λ w, cache w !! queryKey);
  match promiseInFlight, entry with
  | Some _, _ | _, None => mret None
  | None, Some entry =>
      let isNotInAnySuccessStates :=
        bool_decide (status (state entry) ≠ Success) &&
        bool_decide (status (state entry) ≠ FirstSuccess) in
      let isFetching := bool_decide (status (state entry) = Fetching) in
      if isNotInAnySuccessStates || isFetching then mret None else
      now ← Date_now;
      stale ← gets staleTime;
      let differenceInMs := getDifferenceInMs (lastUpdatedAt (state entry)) now in
      let isStale := bool_decide (differenceInMs > stale) in
      if negb isStale then mret None else
      let isFirstFetchSuccessForQuery :=
        bool_decide (status (state entry) = FirstSuccess) in
      let isFirstFetchWithinBufferWindow :=
        bool_decide (differenceInMs < FIRST_FETCH_SUCCESS_BACKGROUND_FETCH_BUFFER_WINDOW_MS) in
      if isFirstFetchSuccessForQuery && isFirstFetchWithinBufferWindow then mret None else
      let prevLastUpdatedAt := lastUpdatedAt (state entry) in
      now' ← Date_now;
      setAndNotifySubscribers queryKey
        (mkState Fetching (data (state entry)) None now') None;;
      promise ← call_queryFn queryKey fn;
      modify (with_promisesInFlight <[queryKey := promise]>);;
      await promise (BackgroundTask queryKey fn entry prevLastUpdatedAt)
  end.

(** The rest of [backgroundQuery], after the awaited promise settled:
    [finallyCb] first, then the branch on [error]. *)
Definition backgroundQuery_resume (queryKey : string) (fn : QueryFn)
    (entry : CacheEntry) (prevLastUpdatedAt : Z) (s : Settlement) : M Completion :=
  modify (with_promisesInFlight (delete queryKey));;
  let '(d, err) := handlePromise s in
  match err with
  | Some _ =>
      setAndNotifySubscribers queryKey
        (mkState Success (data (state entry)) None prevLastUpdatedAt) (Some fn);;
      mret Fulfilled
  | None =>
      now ← Date_now;
      setAndNotifySubscribers queryKey (mkState Success d None now) (Some fn);;
      mret Fulfilled
  end.

Definition directQuery (queryKey : string) (fn : QueryFn) (initialData : Value)
    : M (option Promise) :=
  promiseInFlight ← gets (λ w, promisesInFlight w !! queryKey);
  entry ← gets (λ w, cache w !! queryKey);
  if bool_decide (is_Some promiseInFlight) ||
     bool_decide (opt_status entry = Some Loading) then mret None else
  let shouldInitializeWithInitialData :=
    negb (bool_decide (is_Some promiseInFlight)) &&
    bool_decide (initialData ≠ VUndefined) &&
    bool_decide (opt_data entry = VUndefined) in
  if shouldInitializeWithInitialData then
    now ← Date_now;
    setAndNotifySubscribers queryKey
      (mkState FirstSuccess initialData None now) (Some fn);;
    mret None
  else
    now ← Date_now;
    setAndNotifySubscribers queryKey (mkState Loading VUndefined None now) None;;
    promise ← call_queryFn queryKey fn;
    modify (with_promisesInFlight <[queryKey := promise]>);;
    await promise (DirectTask queryKey fn entry).

(** The rest of [directQuery]. *)
Definition directQuery_resume (queryKey : string) (fn : QueryFn)
    (entry : option CacheEntry) (s : Settlement) : M Completion :=
  modify (with_promisesInFlight (delete queryKey));;
  let '(d, err) := handlePromise s in
  match err with
  | Some e =>
      setAndNotifySubscribers queryKey
        (mkState Error VUndefined (Some e) FORCE_STALE_TIME) (Some fn);;
      mret Fulfilled
  | None =>
      let isFirstFetchForQuery := negb (truthy (opt_data entry)) in
      now ← Date_now;
      setAndNotifySubscribers queryKey
        (mkState (if isFirstFetchForQuery then FirstSuccess else Success) d None now)
        (Some fn);;
      mret Fulfilled
  end.

Definition fetchQuery (queryKey : string) (fn : QueryFn) (initialData : Value)
    : M (option Promise) :=
  entry ← gets (λ w, cache w !! queryKey);
  match entry with
  | None => directQuery queryKey fn initialData
  | Some _ => backgroundQuery queryKey fn
  end.

(** [refetchQuery] throws synchronously when no fetch function is recorded. *)
Definition refetchQuery (queryKey : string) : M (JsError + option Promise) :=
  entry ← gets (λ w, cache w !! queryKey);
  match entry ≫= queryFn with
  | None => mret (inl (mkError ("No queryFn found for queryKey: " +:+ queryKey)))
  | Some fn => r ← directQuery queryKey fn VUndefined; mret (inr r)
  end.

Definition cancelQuery (queryKey : string) : M unit :=
  hasExistingPromise ← gets (λ w, bool_decide (is_Some (promisesInFlight w !! queryKey)));
  entry ← gets (λ w, cache w !! queryKey);
  match hasExistingPromise, entry with
  | true, Some entry =>
      modify (with_promisesInFlight (delete queryKey));;
      setAndNotifySubscribers queryKey
        (mkState Idle (data (state entry)) None FORCE_STALE_TIME) (queryFn entry)
  | _, _ => mret tt
  end.

Definition invalidateQuery (queryKey : string) : M (option Promise) :=
  entry ← gets (λ w, cache w !! queryKey);
  match entry with
  | Some entry =>
      setAndNotifySubscribers queryKey
        (mkState Success (data (state entry)) None FORCE_STALE_TIME) (queryFn entry);;
      match queryFn entry with
      | Some fn => backgroundQuery queryKey fn
      | None => mret None
      end
  | None => mret None
  end.

(** ** The host's part of a run *)

Definition resume (t : Task) (s : Settlement) : M Completion :=
  match t with
  | DirectTask queryKey fn entry => directQuery_resume queryKey fn entry s
  | BackgroundTask queryKey fn entry prev =>
      backgroundQuery_resume queryKey fn entry prev s
  end.

(** Promise [p] settles: the method body suspended on it, if any, runs to its
    end. *)
Definition settle (p : Promise) (s : Settlement) : M (option Completion) :=
  t ← gets (λ w, awaiting w !! p);
  match t with
  | Some task =>
      modify (with_awaiting (delete p));;
      c ← resume task s;
      mret (Some c)
  | None => mret None
  end.

(** A pending timeout fires once it is due. *)
Definition fireTimer (id : TimerId) : M unit :=
  t ← gets (λ w, timers w !! id);
  now ← Date_now;
  match t with
  | Some (due, queryKey) =>
      if bool_decide (due ≤ now) then
        modify (with_timers (delete id));;
        gcCallback queryKey
      else mret tt
  | None => mret tt
  end.

Fixpoint fireTimers (ids : list TimerId) : M unit :=
  match ids with
  | [] => mret tt
  | id :: ids => fireTimer id;; fireTimers ids
  end.

(** [ms] milliseconds pass and every timeout that became due fires. *)
Definition advance (ms : Z) : M unit :=
  modify (with_clock (λ t, t + ms));;
  ids ← gets (λ w, (map_to_list (timers w)).*1);
  fireTimers ids.

(** * Runs of the cache *)

(** What can happen to a cache: a call of a public method, a promise handed
    out by a fetch function settling, and time passing. *)
Inductive Step :=
| SFetchQuery (queryKey : string) (fn : QueryFn) (initialData : Value)
| SSetData (queryKey : string) (d : Value)
| SInvalidateQuery (queryKey : string)
| SCancelQuery (queryKey : string)
| SRefetchQuery (queryKey : string)
| SSubscribe (queryKey : string) (callback : Callback)
| SUnsubscribe (queryKey : string) (callback : Callback)
| SClear
| SSettle (p : Promise) (s : Settlement)
| SAdvance (ms : Z).

Definition step (s : Step) : M unit :=
  match s with
  | SFetchQuery queryKey fn initialData => fetchQuery queryKey fn initialData;; mret tt
  | SSetData queryKey d => setData queryKey d
  | SInvalidateQuery queryKey => invalidateQuery queryKey;; mret tt
  | SCancelQuery queryKey => cancelQuery queryKey
  | SRefetchQuery queryKey => refetchQuery queryKey;; mret tt
  | SSubscribe queryKey callback => subscribe queryKey callback
  | SUnsubscribe queryKey callback => unsubscribe queryKey callback
  | SClear => clear
  | SSettle p s => settle p s;; mret tt
  | SAdvance ms => advance ms
  end.

Fixpoint run_steps (steps : list Step) : M unit :=
  match steps with
  | [] => mret tt
  | s :: steps => step s;; run_steps steps
  end.

(** ** The payload of a state *)

(** loading and error states carry no data. *)
Definition no_data_ok (st : QueryState) : Prop :=
  status st = Loading ∨ status st = Error → data st = VUndefined.

(** first-success, success and fetching states carry data that is neither
    [undefined] nor [null]. *)
Definition has_data_ok (st : QueryState) : Prop :=
  status st = FirstSuccess ∨ status st = Success ∨ status st = Fetching →
  is_nullish (data st) = false.

(** The invariant of the spec's data model, for one state. *)
Definition payload_as_stated (st : QueryState) : Prop :=
  no_data_ok st ∧ has_data_ok st ∧ (status st = Idle → data st = VUndefined).

Definition entries_no_data_ok (w : World) : Prop :=
  ∀ k e, cache w !! k = Some e → no_data_ok (state e).

(** Success-family entries hold data, and so do the entries captured by the
    suspended background fetches, whose data is written back on failure. *)
Definition entries_have_data_ok (w : World) : Prop :=
  (∀ k e, cache w !! k = Some e → has_data_ok (state e)) ∧
  (∀ p k fn e prev, awaiting w !! p = Some (BackgroundTask k fn e prev) →
     is_nullish (data (state e)) = false).

(** The steps that hand the cache data which is not null, and that
    invalidate only entries which hold data. *)
Definition supplies_data (w : World) (s : Step) : Prop :=
  match s with
  | SFetchQuery _ _ initialData => initialData ≠ VNull
  | SSetData _ d => is_nullish d = false
  | SSettle _ (Resolves d) => is_nullish d = false
  | SInvalidateQuery queryKey =>
      match cache w !! queryKey with
      | Some e => is_nullish (data (state e)) = false
      | None => True
      end
  | _ => True
  end.

Fixpoint run_supplies_data (w : World) (steps : list Step) : Prop :=
  match steps with
  | [] => True
  | s :: steps => supplies_data w s ∧ run_supplies_data (exec (step s) w) steps
  end.

(** [n] calls of [fetchQuery] issued in one synchronous block: only the
    synchronous prefixes run, nothing settles in between. *)
Fixpoint fetchQuery_times (n : nat) (queryKey : string) (fn : QueryFn)
    (initialData : Value) : M unit :=
  match n with
  | O => mret tt
  | S n =>
      fetchQuery queryKey fn initialData;;
      fetchQuery_times n queryKey fn initialData
  end.

(** The operations of the cache on one key: the public methods, the two
    fetch styles with the rest of their bodies, and the key's GC timeout
    firing. *)
Inductive KeyedOp :=
| OpFetchQuery (fn : QueryFn) (initialData : Value)
| OpDirectQuery (fn : QueryFn) (initialData : Value)
| OpBackgroundQuery (fn : QueryFn)
| OpSetData (d : Value)
| OpInvalidateQuery
| OpCancelQuery
| OpRefetchQuery
| OpSubscribe (callback : Callback)
| OpUnsubscribe (callback : Callback)
| OpDirectQueryRest (fn : QueryFn) (entry : option CacheEntry) (s : Settlement)
| OpBackgroundQueryRest (fn : QueryFn) (entry : CacheEntry) (prev : Z) (s : Settlement)
| OpGcTimeout.

Definition perform (queryKey : string) (op : KeyedOp) : M unit :=
  match op with
  | OpFetchQuery fn initialData => fetchQuery queryKey fn initialData;; mret tt
  | OpDirectQuery fn initialData => directQuery queryKey fn initialData;; mret tt
  | OpBackgroundQuery fn => backgroundQuery queryKey fn;; mret tt
  | OpSetData d => setData queryKey d
  | OpInvalidateQuery => invalidateQuery queryKey;; mret tt
  | OpCancelQuery => cancelQuery queryKey
  | OpRefetchQuery => refetchQuery queryKey;; mret tt
  | OpSubscribe callback => subscribe queryKey callback
  | OpUnsubscribe callback => unsubscribe queryKey callback
  | OpDirectQueryRest fn entry s => directQuery_resume queryKey fn entry s;; mret tt
  | OpBackgroundQueryRest fn entry prev s =>
      backgroundQuery_resume queryKey fn entry prev s;; mret tt
  | OpGcTimeout => gcCallback queryKey
  end.

(** * use-mutation.ts *)

(** The [mutate] function of the hook, with the types of mutation-types.ts.
    React's [setState] is an event of the trace. *)

Module Mutation.

Inductive MutationStatus := MIdle | MLoading | MSuccess | MError.

Record MutationState := mkMutationState {
  mstatus : MutationStatus;
  mdata : Value;
  merror : option JsError
}.

(** What awaiting a call gives: a value, or a thrown value / rejection. *)
Inductive Result (A : Type) :=
| Returns (a : A)
| Throws (t : Thrown).
Arguments Returns {A} a.
Arguments Throws {A} t.

(** The options of the hook.  A callback is embedded as what awaiting its
    call yields for given arguments; the trace records that it was called. *)
Record UseMutationOptions := mkOptions {
  mutationFn : Value → Result Value;
  onMutate : option (Value → Result Value);
  onSuccess : option (Value → Value → Value → Result unit);
  onError : option (JsError → Value → Value → Result unit);
  onSettled : option (Value → option JsError → Value → Value → Result unit)
}.

Inductive MEvent :=
| SetState (s : MutationState)
| CalledOnMutate (variables : Value)
| CalledMutationFn (variables : Value)
| CalledOnSuccess (d variables context : Value)
| CalledOnError (e : JsError) (variables context : Value)
| CalledOnSettled (d : Value) (e : option JsError) (variables context : Value).

(** The locals of one [mutate] call that outlive the [try] block (the
    [context] variable) and the trace of what the call did so far. *)
Record Frame := mkFrame {
  context : Value;
  events : list MEvent
}.

(** State and exceptions. *)
Definition X (A : Type) : Type := Frame → Frame * Result A.

Definition xret {A} (a : A) : X A := λ f, (f, Returns a).
Definition xbind {A B} (c : X A) (k : A → X B) : X B :=
  λ f, let (f', r) := c f in
       match r with
       | Returns a => k a f'
       | Throws t => (f', Throws t)
       end.
Definition throw {A} (t : Thrown) : X A := λ f, (f, Throws t).
Definition try_catch {A} (body : X A) (handler : Thrown → X A) : X A :=
  λ f, let (f', r) := body f in
       match r with
       | Returns a => (f', Returns a)
       | Throws t => handler t f'
       end.

#[global] Instance X_ret : MRet X := @xret.
#[global] Instance X_bind : MBind X := λ A B k c, xbind c k.

Definition emit (e : MEvent) : X unit :=
  λ f, (mkFrame (context f) (events f ++ [e]), Returns tt).
Definition setState (s : MutationState) : X unit := emit (SetState s).
Definition set_context (c : Value) : X unit :=
  λ f, (mkFrame c (events f), Returns tt).
Definition get_context : X Value := λ f, (f, Returns (context f)).

(** [await callback(args)] *)
Definition call {A} (e : MEvent) (r : Result A) : X A :=
  emit e;; λ f, (f, r).

Definition mutate (options : UseMutationOptions) (variables : Value) : X Value :=
  try_catch
    (match onMutate options with
     | Some cb =>
         c ← call (CalledOnMutate variables) (cb variables);
         set_context c
     | None => mret tt
     end;;
     setState (mkMutationState MLoading VUndefined None);;
     d ← call (CalledMutationFn variables) (mutationFn options variables);
     setState (mkMutationState MSuccess d None);;
     match onSuccess options with
     | Some cb =>
         c ← get_context;
         call (CalledOnSuccess d variables c) (cb d variables c)
     | None => mret tt
     end;;
     match onSettled options with
     | Some cb =>
         c ← get_context;
         call (CalledOnSettled d None variables c) (cb d None variables c)
     | None => mret tt
     end;;
     mret d)
    (λ error,
     let typedError := coerceError error in
     setState (mkMutationState MError VUndefined (Some typedError));;
     match onError options with
     | Some cb =>
         c ← get_context;
         call (CalledOnError typedError variables c) (cb typedError variables c)
     | None => mret tt
     end;;
     match onSettled options with
     | Some cb =>
         c ← get_context;
         call (CalledOnSettled VUndefined (Some typedError) variables c)
           (cb VUndefined (Some typedError) variables c)
     | None => mret tt
     end;;
     throw (ThrownError typedError)).

(** One run of [mutate] from a fresh frame: its trace and its outcome. *)
Definition run (options : UseMutationOptions) (variables : Value)
    : list MEvent * Result Value :=
  let (f, r) := mutate options variables (mkFrame VUndefined []) in
  (events f, r).

(** *** Properties of a trace *)

Definition is_settled (e : MEvent) : bool :=
  match e with
  | CalledOnSettled _ _ _ _ => true
  | _ => false
  end.

(** How often onSettled fired. *)
Definition settled_count (tr : list MEvent) : nat :=
  length (filter (λ e, is_settled e = true) tr).

(** onSettled is the last thing that happened. *)
Definition settled_last (tr : list MEvent) : bool :=
  match last tr with
  | Some e => is_settled e
  | None => false
  end.

(** Every call of onSuccess comes after a [setState] to success, and every
    call of onError after a [setState] to error. *)
Fixpoint terminal_state_first (seen_success seen_error : bool) (tr : list MEvent) : bool :=
  match tr with
  | [] => true
  | SetState s :: tr =>
      match mstatus s with
      | MSuccess => terminal_state_first true seen_error tr
      | MError => terminal_state_first seen_success true tr
      | _ => terminal_state_first seen_success seen_error tr
      end
  | CalledOnSuccess _ _ _ :: tr => seen_success && terminal_state_first seen_success seen_error tr
  | CalledOnError _ _ _ :: tr => seen_error && terminal_state_first seen_success seen_error tr
  | _ :: tr => terminal_state_first seen_success seen_error tr
  end.

Definition never_throws_onError (options : UseMutationOptions) : Prop :=
  ∀ cb e variables c, onError options = Some cb → cb e variables c = Returns tt.

Definition never_throws_onSettled (options : UseMutationOptions) : Prop :=
  ∀ cb d e variables c, onSettled options = Some cb → cb d e variables c = Returns tt.

(** A mutation with all callbacks, none of which throws, whose mutation
    function rejects: the rollback scenario. *)
Definition rollback_options : UseMutationOptions :=
  {| mutationFn := λ _, Throws (ThrownError (mkError "Failed to add"));
     onMutate := Some (λ _, Returns (VStr "previous"));
     onSuccess := Some (λ _ _ _, Returns tt);
     onError := Some (λ _ _ _, Returns tt);
     onSettled := Some (λ _ _ _ _, Returns tt) |}.

(** The mutation function resolves and onSettled throws when it is called
    on the success path. *)
Definition settled_throws_options : UseMutationOptions :=
  {| mutationFn := λ v, Returns v;
     onMutate := None;
     onSuccess := None;
     onError := None;
     onSettled := Some (λ _ e _ _,
                    match e with
                    | None => Throws (ThrownError (mkError "settled failed"))
                    | Some _ => Returns tt
                    end) |}.

(** The mutation function rejects and onError throws. *)
Definition error_throws_options : UseMutationOptions :=
  {| mutationFn := λ _, Throws (ThrownError (mkError "Failed to add"));
     onMutate := None;
     onSuccess := None;
     onError := Some (λ _ _ _, Throws (ThrownError (mkError "rollback failed")));
     onSettled := Some (λ _ _ _ _, Returns tt) |}.

End Mutation.

(** * What the theorems speak about *)

(** ** Observations on a run *)

(** The events a computation adds to the trace. *)
Definition new_events {A} (c : M A) (w : World) : list Event :=
  drop (length (trace w)) (trace (exec c w)).

Definition is_call (fn : QueryFn) (e : Event) : bool :=
  match e with
  | QueryFnCalled _ fn' _ => bool_decide (fn' = fn)
  | Notified _ _ => false
  end.

(** How often [fn] was invoked in a trace. *)
Definition invocations (fn : QueryFn) (t : list Event) : nat :=
  length (filter (λ e, is_call fn e = true) t).
Arguments invocations : simpl never.

Definition event_key (e : Event) : string :=
  match e with
  | Notified k _ => k
  | QueryFnCalled k _ _ => k
  end.

(** The five conditions of [backgroundQuery], read off its early returns. *)
Definition background_conditions (w : World) (queryKey : string) : Prop :=
  promisesInFlight w !! queryKey = None ∧
  ∃ entry, cache w !! queryKey = Some entry ∧
    (status (state entry) = Success ∨ status (state entry) = FirstSuccess) ∧
    clock w - lastUpdatedAt (state entry) > staleTime w ∧
    ¬ (status (state entry) = FirstSuccess ∧
       clock w - lastUpdatedAt (state entry)
         < FIRST_FETCH_SUCCESS_BACKGROUND_FETCH_BUFFER_WINDOW_MS).

(** The same conditions with staleness read as the spec words it: an entry
    is stale when the elapsed time exceeds staleTime or its timestamp is the
    force-stale sentinel. *)
Definition is_stale (w : World) (entry : CacheEntry) : Prop :=
  clock w - lastUpdatedAt (state entry) > staleTime w ∨
  lastUpdatedAt (state entry) = FORCE_STALE_TIME.

Definition background_conditions_spec (w : World) (queryKey : string) : Prop :=
  promisesInFlight w !! queryKey = None ∧
  ∃ entry, cache w !! queryKey = Some entry ∧
    (status (state entry) = Success ∨ status (state entry) = FirstSuccess) ∧
    is_stale w entry ∧
    ¬ (status (state entry) = FirstSuccess ∧
       clock w - lastUpdatedAt (state entry)
         < FIRST_FETCH_SUCCESS_BACKGROUND_FETCH_BUFFER_WINDOW_MS).

(** ** Relating the world before and after a computation *)

(** A computation respects a relation on worlds when every run of it relates
    the world it started in to the world it ends in.  For a preorder this is
    compositional, which covers frame conditions ([frame] below) as well as
    the preservation of an invariant ([λ w w', P w → P w']). *)
Definition respects (R : World → World → Prop) {A} (c : M A) : Prop :=
  ∀ w, R w (exec c w).

Definition preserves (P : World → Prop) (w w' : World) : Prop := P w → P w'.

(** ** Per-key isolation *)

(** What an operation on [queryKey] may not touch: the four registries at
    any other key, and the subscribers of any other key. *)
Record frame (queryKey : string) (w w' : World) : Prop := mkFrame {
  frame_cache : ∀ k', k' ≠ queryKey → cache w' !! k' = cache w !! k';
  frame_promisesInFlight :
    ∀ k', k' ≠ queryKey → promisesInFlight w' !! k' = promisesInFlight w !! k';
  frame_subscribers :
    ∀ k', k' ≠ queryKey → subscribers w' !! k' = subscribers w !! k';
  frame_gcTimeouts :
    ∀ k', k' ≠ queryKey → gcTimeouts w' !! k' = gcTimeouts w !! k';
  frame_trace :
    ∃ l, trace w' = trace w ++ l ∧ Forall (λ e, event_key e = queryKey) l
}.

(** Timer handles are fresh when allocated, and the handle a key holds in
    [gcTimeouts] is that of a timeout armed for this key. *)
Definition timers_wf (w : World) : Prop :=
  map_Forall (λ id _, (id < nextTimer w)%nat) (timers w) ∧
  map_Forall (λ k id, (id < nextTimer w)%nat ∧
                      ∀ v, timers w !! id = Some v → v.2 = k) (gcTimeouts w).

(** The pending timeouts of the other keys stay as they are. *)
Definition timers_elsewhere (queryKey : string) (w w' : World) : Prop :=
  ∀ id v, v.2 ≠ queryKey → timers w' !! id = Some v ↔ timers w !! id = Some v.

Definition timers_unchanged (w w' : World) : Prop := timers w' = timers w.

(** What an operation on [queryKey] leaves alone at another key [k']. *)
Definition isolated_from (w : World) (queryKey k' : string) (op : KeyedOp) : Prop :=
  let w' := exec (perform queryKey op) w in
  cache w' !! k' = cache w !! k' ∧
  subscribers w' !! k' = subscribers w !! k' ∧
  promisesInFlight w' !! k' = promisesInFlight w !! k' ∧
  gcTimeouts w' !! k' = gcTimeouts w !! k' ∧
  (∀ id due, timers w' !! id = Some (due, k') ↔ timers w !! id = Some (due, k')) ∧
  (∀ callback, Notified k' callback ∉ new_events (perform queryKey op) w).

(** [clear] empties the four registries at every key. *)
Definition cleared (w : World) : Prop :=
  ∀ k, cache w !! k = None ∧ subscribers w !! k = None ∧
       promisesInFlight w !! k = None ∧ gcTimeouts w !! k = None.

(** * Concrete runs *)

Module Scenario.

(** [new QueryCache()] with the default configuration, at time 0. *)
Definition fresh : World := newQueryCache None None 0.

Definition queryFn1 : QueryFn := 1%nat.
Definition failed_refresh : Thrown := ThrownError (mkError "failed refresh").
Definition load_failed : Thrown := ThrownError (mkError "load failed").

(** A first fetch of ["key"] that resolved with ["good data"], 300 ms ago. *)
Definition populated : World :=
  exec (fetchQuery "key" queryFn1 VUndefined;;
        settle 0%nat (Resolves (VStr "good data"));;
        advance 300) fresh.

Definition populated_entry : CacheEntry :=
  mkEntry (mkState FirstSuccess (VStr "good data") None 0) (Some queryFn1).

(** ... and a background fetch under way on it. *)
Definition revalidating : World :=
  exec (backgroundQuery "key" queryFn1) populated.

(** A first fetch of ["key"] under way. *)
Definition loading : World :=
  exec (fetchQuery "key" queryFn1 VUndefined) fresh.

(** A first fetch that resolved, a refetch that rejected, and a second
    refetch under way. *)
Definition refetching_after_error : World :=
  exec (fetchQuery "key" queryFn1 VUndefined;;
        settle 0%nat (Resolves (VStr "a"));;
        refetchQuery "key";;
        settle 1%nat (Rejects load_failed);;
        refetchQuery "key") fresh.

End Scenario.

(** ** Garbage collection of a key that is watched again *)

Module GcScenario.

Definition cb1 : Callback := 1%nat.
Definition cb2 : Callback := 2%nat.

(** A cache with a grace period of one second holds data for ["key"]; its
    only subscriber leaves, and half a second later a new one arrives. *)
Definition resubscribed : World :=
  exec (setData "key" (VStr "data");;
        subscribe "key" cb1;;
        unsubscribe "key" cb1;;
        advance 500;;
        subscribe "key" cb2) (newQueryCache (Some 1000) None 0).

(** The grace period armed by [unsubscribe] elapses. *)
Definition after_grace_period : World := exec (advance 500) resubscribed.

End GcScenario.

(** ** Invalidating an entry that is not in a success state *)

Module InvalidateScenario.

(** The first fetch of ["key"] rejected: the entry is in error state and
    records the fetch function. *)
Definition failed : World :=
  exec (fetchQuery "key" Scenario.queryFn1 VUndefined;;
        settle 0%nat (Rejects Scenario.load_failed);;
        advance 10) Scenario.fresh.

Definition invalidated : World := exec (invalidateQuery "key") failed.

(** [invalidateQuery] on an entry that is loading (no fetch function is
    recorded while loading, so no background fetch follows). *)
Definition invalidated_while_loading : World :=
  exec (invalidateQuery "key") Scenario.loading.

End InvalidateScenario.

(** ** Two keys *)

Module IsolationScenario.

(** Key ["a"] lost its only subscriber, so a GC timeout is pending for it;
    key ["b"] has data and one subscriber. *)
Definition two_keys : World :=
  exec (run_steps [SSetData "a" (VStr "x"); SSubscribe "a" 1%nat;
                   SUnsubscribe "a" 1%nat; SSetData "b" (VStr "y");
                   SSubscribe "b" 2%nat])
    (newQueryCache None None 0).

End IsolationScenario.

(** ** A cancelled background fetch *)

Module PayloadScenario.

(** A first fetch resolves, a background fetch starts 300 ms later and is
    cancelled. *)
Definition cancelled_steps : list Step :=
  [SFetchQuery "key" 1%nat VUndefined;
   SSettle 0%nat (Resolves (VStr "data"));
   SAdvance 300;
   SFetchQuery "key" 1%nat VUndefined;
   SCancelQuery "key"].

Definition cancelled : World :=
  exec (run_steps cancelled_steps) (newQueryCache None None 0).

End PayloadScenario.

(** * More of the code: what the further theorems speak about *)

(** ** The subscriber registry and the GC scheduler *)

(** Every stored subscriber set has a member and holds no callback twice. *)
Definition subscribers_wf (w : World) : Prop :=
  ∀ k s, subscribers w !! k = Some s → s ≠ [] ∧ NoDup s.

(** The key is absent from the four registries. *)
Definition gone (queryKey : string) (w : World) : Prop :=
  cache w !! queryKey = None ∧ promisesInFlight w !! queryKey = None ∧
  subscribers w !! queryKey = None ∧ gcTimeouts w !! queryKey = None.

(** Every pending timeout is the one its key holds the handle of, and
    handles are positive. *)
Definition timers_tracked (w : World) : Prop :=
  (0 < nextTimer w)%nat ∧
  (∀ k id, gcTimeouts w !! k = Some id → id ≠ 0%nat) ∧
  (∀ id v, timers w !! id = Some v → gcTimeouts w !! v.2 = Some id).

(** A run in which [clear] is not called. *)
Definition no_clear (steps : list Step) : Prop := Forall (λ s, s ≠ SClear) steps.

(** ** Fetches under way *)

Definition task_key (t : Task) : string :=
  match t with
  | DirectTask queryKey _ _ => queryKey
  | BackgroundTask queryKey _ _ _ => queryKey
  end.

(** An entry whose fetch is under way. *)
Definition busy (e : CacheEntry) : Prop :=
  status (state e) = Loading ∨ status (state e) = Fetching.

(** The in-flight registry, the suspended fetches and the loading and
    fetching entries agree: a registered promise belongs to a key that has
    an entry and is awaited by a suspended fetch of that key; promise
    identities are fresh; and an entry that is loading or fetching has a
    promise registered and records no fetch function. *)
Definition fetch_wf_maps (c : gmap string CacheEntry) (pr : gmap string Promise)
    (aw : gmap Promise Task) (np : Promise) : Prop :=
  (∀ k p, pr !! k = Some p →
     is_Some (c !! k) ∧ ∃ t, aw !! p = Some t ∧ task_key t = k) ∧
  (∀ p t, aw !! p = Some t → (p < np)%nat) ∧
  (∀ k e, c !! k = Some e → busy e → is_Some (pr !! k) ∧ queryFn e = None).

Definition fetch_wf (w : World) : Prop :=
  fetch_wf_maps (cache w) (promisesInFlight w) (awaiting w) (nextPromise w).

(** The error field is set exactly in error states. *)
Definition error_ok (st : QueryState) : Prop :=
  status st = Error ↔ is_Some (error st).

Definition entries_error_ok (w : World) : Prop :=
  ∀ k e, cache w !! k = Some e → error_ok (state e).

(** While a promise is registered for a key, the key's entry records no
    fetch function. *)
Definition inflight_no_fn (w : World) : Prop :=
  ∀ k p e, promisesInFlight w !! k = Some p → cache w !! k = Some e →
    queryFn e = None.

(** The steps that are neither [unsubscribe] nor [clear]. *)
Definition keeps_entries (s : Step) : Prop :=
  match s with
  | SUnsubscribe _ _ | SClear => False
  | _ => True
  end.

(** No timeout is pending, and the keys that had an entry still have one. *)
Definition entries_kept (w w' : World) : Prop :=
  timers w = ∅ →
  timers w' = ∅ ∧ ∀ k, is_Some (cache w !! k) → is_Some (cache w' !! k).

(** ** The result of the [useQuery] hook *)

(** The object [useQuery] returns, without its [refetch] closure. *)
Record UseQueryResult := mkUseQueryResult {
  result_status : Status;
  result_data : Value;
  result_error : option JsError;
  isLoading : bool;
  isError : bool;
  isSuccess : bool
}.

(** [getSnapshot]: the state of the key's entry, or the idle state made when
    the hook was mounted. *)
Definition getSnapshot (mountedAt : Z) (hashedKey : string) (w : World) : QueryState :=
  default (mkState Idle VUndefined None mountedAt) (state <$> cache w !! hashedKey).

(** The [switch] at the end of [useQuery]. *)
Definition useQuery_result (st : QueryState) : UseQueryResult :=
  match status st with
  | Idle => mkUseQueryResult Idle VUndefined None false false false
  | Loading => mkUseQueryResult Loading VUndefined None true false false
  | Fetching => mkUseQueryResult Fetching (data st) None false false false
  | Error => mkUseQueryResult Error VUndefined (error st) false true false
  | Success | FirstSuccess => mkUseQueryResult Success (data st) None false false true
  end.

(** The steps other than the settlement of promise [p]. *)
Definition not_settling (p : Promise) (s : Step) : Prop :=
  match s with
  | SSettle p' _ => p' ≠ p
  | _ => True
  end.

(** ** What a run of [mutate] shows *)

Module MutationObs.
Import Mutation.

(** The state the hook is left in: the argument of the last [setState]. *)
Definition last_state (tr : list MEvent) : option MutationState :=
  last (omap (λ e, match e with SetState s => Some s | _ => None end) tr).

(** How often the mutation function was called. *)
Definition is_mutationFn_call (e : MEvent) : bool :=
  match e with
  | CalledMutationFn _ => true
  | _ => false
  end.

Definition mutationFn_calls (tr : list MEvent) : nat :=
  length (filter (λ e, is_mutationFn_call e = true) tr).

(** The context that reaches the callbacks: what onMutate returned, or
    [undefined] without onMutate or when it threw. *)
Definition context_of (options : UseMutationOptions) (variables : Value) : Value :=
  match onMutate options with
  | Some cb =>
      match cb variables with
      | Returns c => c
      | Throws _ => VUndefined
      end
  | None => VUndefined
  end.

(** The call was given these variables and, where it takes one, this
    context. *)
Definition called_with (variables c : Value) (e : MEvent) : Prop :=
  match e with
  | SetState _ => True
  | CalledOnMutate v | CalledMutationFn v => v = variables
  | CalledOnSuccess _ v c' | CalledOnError _ v c' | CalledOnSettled _ _ v c' =>
      v = variables ∧ c' = c
  end.

(** onMutate threw. *)
Definition onMutate_throws (options : UseMutationOptions) (variables : Value) : Prop :=
  ∃ cb t, onMutate options = Some cb ∧ cb variables = Throws t.

End MutationObs.

(** ** QueryClient

    The facade over the cache: every method hashes the query key and calls
    the cache.  The hash function is a parameter here. *)

Module QueryClient.
Section WithHashKey.
Context {QueryKey : Type} (hashKey : QueryKey → string).

Definition fetchQuery (queryKey : QueryKey) (fn : QueryFn) (initialData : Value)
    : M (option Promise) :=
  let hashedKey := hashKey queryKey in
  (fetchQuery : string → QueryFn → Value → M (option Promise)) hashedKey fn initialData.

Definition getQueryData (queryKey : QueryKey) : M Value :=
  existingCachedEntry ← getCacheEntry (hashKey queryKey);
  mret (opt_data existingCachedEntry).

Definition setQueryData (queryKey : QueryKey) (d : Value) : M unit :=
  let hashedKey := hashKey queryKey in
  setData hashedKey d.

Definition refetchQueries (queryKey : QueryKey) : M (JsError + option Promise) :=
  let hashedKey := hashKey queryKey in
  refetchQuery hashedKey.

Definition invalidateQueries (queryKey : QueryKey) : M unit :=
  let hashedKey := hashKey queryKey in
  invalidateQuery hashedKey;; mret tt.

Definition cancelQueries (queryKey : QueryKey) : M unit :=
  let hashedKey := hashKey queryKey in
  cancelQuery hashedKey.

Definition getQueryState (queryKey : QueryKey) : M (option QueryState) :=
  let hashedKey := hashKey queryKey in
  entry ← getCacheEntry hashedKey;
  mret (state <$> entry).

Definition hasQuery (queryKey : QueryKey) : M bool :=
  let hashedKey := hashKey queryKey in
  (hasQuery : string → M bool) hashedKey.

End WithHashKey.
End QueryClient.

(** * Proofs *)

Ltac unfold_monad :=
  cbv [mbind mret M_bind M_ret bind ret gets modify exec eval] in *.

Ltac unfold_cache :=
  cbv [fetchQuery directQuery backgroundQuery directQuery_resume
       backgroundQuery_resume invalidateQuery cancelQuery refetchQuery
       setData setAndNotifySubscribers set notifySubscribers await
       call_queryFn Date_now subscribe unsubscribe getSubscriberCount
       scheduleGC setTimeout clearTimeout gcCallback clear settle resume
       fireTimer handlePromise getDifferenceInMs opt_data opt_status] in *;
  unfold_monad.

(** Run a method on a world symbolically, splitting on every branch taken
    (innermost scrutinee first). *)
Ltac run_cache :=
  unfold_cache;
  repeat (cbn; rewrite ?lookup_insert_eq;
          match goal with
          | |- context [match ?x with _ => _ end] =>
              lazymatch x with
              | context [match _ with _ => _ end] => fail
              | _ => destruct x eqn:?
              end
          end);
  cbn.

Lemma new_events_app {A} (c : M A) (w : World) (l : list Event) :
  trace (exec c w) = trace w ++ l → new_events c w = l.
Proof. intros H. unfold new_events. rewrite H. by rewrite drop_app_length. Qed.

Lemma success_family_guard (st : Status) :
  bool_decide (st ≠ Success) && bool_decide (st ≠ FirstSuccess)
  || bool_decide (st = Fetching)
  = negb (bool_decide (st = Success ∨ st = FirstSuccess)).
Proof. destruct st; reflexivity. Qed.

(** What [backgroundQuery] does when it goes ahead. *)
Lemma backgroundQuery_runs (w : World) (queryKey : string) (fn : QueryFn) (entry : CacheEntry) :
  promisesInFlight w !! queryKey = None →
  cache w !! queryKey = Some entry →
  status (state entry) = Success ∨ status (state entry) = FirstSuccess →
  clock w - lastUpdatedAt (state entry) > staleTime w →
  ¬ (status (state entry) = FirstSuccess ∧
     clock w - lastUpdatedAt (state entry)
       < FIRST_FETCH_SUCCESS_BACKGROUND_FETCH_BUFFER_WINDOW_MS) →
  let w' := exec (backgroundQuery queryKey fn) w in
  eval (backgroundQuery queryKey fn) w = Some (nextPromise w) ∧
  cache w' = <[queryKey := mkEntry (mkState Fetching (data (state entry)) None (clock w)) None]> (cache w) ∧
  promisesInFlight w' = <[queryKey := nextPromise w]> (promisesInFlight w) ∧
  awaiting w' = <[nextPromise w := BackgroundTask queryKey fn entry (lastUpdatedAt (state entry))]> (awaiting w) ∧
  trace w' = trace w ++ (Notified queryKey <$> default [] (subscribers w !! queryKey))
                     ++ [QueryFnCalled queryKey fn (nextPromise w)].
Proof.
  intros Hp He Hs Hstale Hbuf. unfold_cache. rewrite Hp, He. cbn.
  rewrite success_family_guard, (bool_decide_eq_true_2 _ Hs). cbn.
  rewrite (bool_decide_eq_true_2 _ Hstale). cbn.
  assert (bool_decide (status (state entry) = FirstSuccess)
          && bool_decide (clock w - lastUpdatedAt (state entry)
               < FIRST_FETCH_SUCCESS_BACKGROUND_FETCH_BUFFER_WINDOW_MS) = false) as ->.
  { apply andb_false_iff.
    destruct (decide (status (state entry) = FirstSuccess)) as [Hf | Hf].
    - right. apply bool_decide_eq_false_2. tauto.
    - left. by apply bool_decide_eq_false_2. }
  destruct (subscribers w !! queryKey) as [subs |] eqn:Hsubs; cbn;
    repeat split; try reflexivity.
  by rewrite <- app_assoc.
Qed.

(** Either the five conditions hold, or [backgroundQuery] returns at once
    and leaves the world as it found it. *)
Lemma backgroundQuery_cases (w : World) (queryKey : string) (fn : QueryFn) :
  background_conditions w queryKey ∨ backgroundQuery queryKey fn w = (None, w).
Proof.
  unfold background_conditions.
  destruct (promisesInFlight w !! queryKey) as [p |] eqn:Hp.
  { right. unfold_cache. by rewrite Hp. }
  destruct (cache w !! queryKey) as [entry |] eqn:He.
  2: { right. unfold_cache. by rewrite Hp, He. }
  destruct (decide (status (state entry) = Success ∨ status (state entry) = FirstSuccess)) as [Hs | Hs].
  2: { right. unfold_cache. rewrite Hp, He.
       by rewrite success_family_guard, (bool_decide_eq_false_2 _ Hs). }
  destruct (decide (clock w - lastUpdatedAt (state entry) > staleTime w)) as [Hst | Hst].
  2: { right. unfold_cache. rewrite Hp, He.
       rewrite success_family_guard, (bool_decide_eq_true_2 _ Hs). cbn.
       by rewrite (bool_decide_eq_false_2 _ Hst). }
  destruct (decide (status (state entry) = FirstSuccess ∧
       clock w - lastUpdatedAt (state entry)
         < FIRST_FETCH_SUCCESS_BACKGROUND_FETCH_BUFFER_WINDOW_MS)) as [Hb | Hb].
  - right. unfold_cache. rewrite Hp, He. destruct Hb as [Hb1 Hb2].
    rewrite success_family_guard, (bool_decide_eq_true_2 _ Hs). cbn.
    rewrite (bool_decide_eq_true_2 _ Hst), (bool_decide_eq_true_2 _ Hb2).
    by rewrite (bool_decide_eq_true_2 _ Hb1).
  - left. split; [done |]. exists entry. done.
Qed.

Lemma new_events_unchanged {A} (c : M A) (w : World) (a : A) :
  c w = (a, w) → new_events c w = [].
Proof.
  intros H. unfold new_events, exec. rewrite H. cbn. apply drop_all.
Qed.

Lemma background_conditions_weaken (w : World) (queryKey : string) :
  background_conditions w queryKey → background_conditions_spec w queryKey.
Proof.
  intros (Hp & entry & He & Hs & Hst & Hb).
  split; [done |]. exists entry. repeat split; try done. by left.
Qed.

(** C4. [backgroundQuery] invokes the fetch function exactly when its five
    conditions hold (no promise in flight for the key, an entry exists, its
    status is success or first-success, the time elapsed since lastUpdatedAt
    exceeds staleTime, and it is not a first-success still inside the 250 ms
    buffer window); otherwise it returns at once with the world, trace of
    notifications included, unchanged.  With the force-stale sentinel
    counted as stale whatever staleTime is, the conditions are still
    necessary for a fetch, and nothing happens when they fail. *)
Theorem C4_backgroundQuery_guard (w : World) (queryKey : string) (fn : QueryFn) :
  ((∃ p, QueryFnCalled queryKey fn p ∈ new_events (backgroundQuery queryKey fn) w)
     ↔ background_conditions w queryKey) ∧
  (¬ background_conditions w queryKey →
     backgroundQuery queryKey fn w = (None, w) ∧
     new_events (backgroundQuery queryKey fn) w = []) ∧
  ((∃ p, QueryFnCalled queryKey fn p ∈ new_events (backgroundQuery queryKey fn) w)
     → background_conditions_spec w queryKey) ∧
  (¬ background_conditions_spec w queryKey →
     backgroundQuery queryKey fn w = (None, w) ∧
     new_events (backgroundQuery queryKey fn) w = []).
Proof.
  assert ((∃ p, QueryFnCalled queryKey fn p ∈ new_events (backgroundQuery queryKey fn) w)
          → background_conditions w queryKey) as Honly.
  { intros [p Hin].
    destruct (backgroundQuery_cases w queryKey fn) as [Hc | Hskip]; [done |].
    rewrite (new_events_unchanged _ _ _ Hskip) in Hin. by apply elem_of_nil in Hin. }
  assert (¬ background_conditions w queryKey →
     backgroundQuery queryKey fn w = (None, w) ∧
     new_events (backgroundQuery queryKey fn) w = []) as Helse.
  { intros Hn.
    destruct (backgroundQuery_cases w queryKey fn) as [Hc | Hskip]; [done |].
    split; [done |]. by eapply new_events_unchanged. }
  split; [split | split; [| split]].
  - exact Honly.
  - intros (Hp & entry & He & Hs & Hst & Hb).
    destruct (backgroundQuery_runs w queryKey fn entry Hp He Hs Hst Hb)
      as (_ & _ & _ & _ & Htr).
    exists (nextPromise w). rewrite (new_events_app _ _ _ Htr).
    apply elem_of_app. right. apply list_elem_of_singleton. reflexivity.
  - exact Helse.
  - intros Hin. by apply background_conditions_weaken, Honly.
  - intros Hn. apply Helse. intros Hc.
    by apply Hn, background_conditions_weaken.
Qed.

(** The force-stale sentinel counts as stale whenever staleTime does not
    exceed the clock, in particular with the default staleTime. *)
Lemma force_stale_is_stale (w : World) :
  staleTime w ≤ clock w →
  getDifferenceInMs FORCE_STALE_TIME (clock w) > staleTime w.
Proof. unfold getDifferenceInMs, FORCE_STALE_TIME. lia. Qed.

(** ** The repository's tests, on the embedding *)

(** 'fetchQuery initializes with initialData' *)
Example fetchQuery_initializes_with_initialData :
  let w := exec (fetchQuery "key" 1%nat (VStr "initial data")) (newQueryCache None None 0) in
  invocations 1%nat (trace w) = 0%nat ∧
  cache w !! "key"
    = Some (mkEntry (mkState FirstSuccess (VStr "initial data") None 0) (Some 1%nat)).
Proof. split; vm_compute; reflexivity. Qed.

(** 'fetchQuery deduplicates concurrent requests' *)
Example fetchQuery_deduplicates_concurrent_requests :
  let w := exec (fetchQuery_times 2 "key" 1%nat VUndefined;;
                 settle 0%nat (Resolves (VStr "data")))
             (newQueryCache None None 0) in
  invocations 1%nat (trace w) = 1%nat ∧
  (state <$> cache w !! "key") = Some (mkState FirstSuccess (VStr "data") None 0).
Proof. split; vm_compute; reflexivity. Qed.

(** 'direct query properly handles errors' *)
Example direct_query_properly_handles_errors :
  let run := fetchQuery "key" 1%nat VUndefined;;
             settle 0%nat (Rejects (ThrownError (mkError "load failed"))) in
  eval run (newQueryCache None None 0) = Some Fulfilled ∧
  (state <$> cache (exec run (newQueryCache None None 0)) !! "key")
    = Some (mkState Error VUndefined (Some (mkError "load failed")) FORCE_STALE_TIME).
Proof. split; vm_compute; reflexivity. Qed.

(** 'subscriber management correctly tracks counts' *)
Example subscriber_management_tracks_counts :
  eval (subscribe "key" 1%nat;; getSubscriberCount "key") (newQueryCache None None 0) = 1%nat ∧
  eval (subscribe "key" 1%nat;; unsubscribe "key" 1%nat;; getSubscriberCount "key")
    (newQueryCache None None 0) = 0%nat.
Proof. split; vm_compute; reflexivity. Qed.

(** ** Deduplication *)

Lemma directQuery_in_flight (w : World) (queryKey : string) (fn : QueryFn)
    (initialData : Value) (p : Promise) :
  promisesInFlight w !! queryKey = Some p →
  directQuery queryKey fn initialData w = (None, w).
Proof. intros Hp. unfold_cache. by rewrite Hp. Qed.

Lemma backgroundQuery_in_flight (w : World) (queryKey : string) (fn : QueryFn)
    (p : Promise) :
  promisesInFlight w !! queryKey = Some p →
  backgroundQuery queryKey fn w = (None, w).
Proof. intros Hp. unfold_cache. by rewrite Hp. Qed.

Lemma fetchQuery_in_flight (w : World) (queryKey : string) (fn : QueryFn)
    (initialData : Value) (p : Promise) :
  promisesInFlight w !! queryKey = Some p →
  fetchQuery queryKey fn initialData w = (None, w).
Proof.
  intros Hp. unfold fetchQuery. unfold_monad.
  destruct (cache w !! queryKey).
  - by eapply backgroundQuery_in_flight.
  - by eapply directQuery_in_flight.
Qed.

(** A call that returned at once with the world unchanged does so again. *)
Lemma fetchQuery_times_idle (n : nat) (w : World) (queryKey : string)
    (fn : QueryFn) (initialData : Value) :
  fetchQuery queryKey fn initialData w = (None, w) →
  fetchQuery_times n queryKey fn initialData w = (tt, w).
Proof.
  intros H. induction n as [| n IH]; [done |].
  cbn [fetchQuery_times]. unfold_monad. by rewrite H.
Qed.

(** What [directQuery] does when it starts a fetch. *)
Lemma directQuery_starts (w : World) (queryKey : string) (fn : QueryFn)
    (initialData : Value) :
  promisesInFlight w !! queryKey = None →
  opt_status (cache w !! queryKey) ≠ Some Loading →
  initialData = VUndefined ∨ opt_data (cache w !! queryKey) ≠ VUndefined →
  let w' := exec (directQuery queryKey fn initialData) w in
  eval (directQuery queryKey fn initialData) w = Some (nextPromise w) ∧
  cache w' = <[queryKey := mkEntry (mkState Loading VUndefined None (clock w)) None]> (cache w) ∧
  promisesInFlight w' = <[queryKey := nextPromise w]> (promisesInFlight w) ∧
  awaiting w' = <[nextPromise w := DirectTask queryKey fn (cache w !! queryKey)]> (awaiting w) ∧
  trace w' = trace w ++ (Notified queryKey <$> default [] (subscribers w !! queryKey))
                     ++ [QueryFnCalled queryKey fn (nextPromise w)].
Proof.
  intros Hp Hl Hi. unfold directQuery. unfold_monad. rewrite Hp.
  rewrite (bool_decide_eq_false_2 (is_Some None)) by (by intros [? ?]).
  rewrite (bool_decide_eq_false_2 _ Hl). cbn [orb negb andb].
  assert (bool_decide (initialData ≠ VUndefined)
          && bool_decide (opt_data (cache w !! queryKey) = VUndefined) = false) as ->.
  { apply andb_false_iff. destruct Hi as [-> | Hi].
    - left. by apply bool_decide_eq_false_2; intros H.
    - right. by apply bool_decide_eq_false_2. }
  unfold_cache. cbn.
  destruct (subscribers w !! queryKey) as [subs |] eqn:Hsubs; cbn;
    repeat split; try reflexivity.
  by rewrite <- app_assoc.
Qed.

Lemma invocations_app (fn : QueryFn) (t1 t2 : list Event) :
  invocations fn (t1 ++ t2) = (invocations fn t1 + invocations fn t2)%nat.
Proof. unfold invocations. by rewrite filter_app, length_app. Qed.

Lemma invocations_notified (fn : QueryFn) (queryKey : string) (subs : list Callback) :
  invocations fn (Notified queryKey <$> subs) = 0%nat.
Proof.
  unfold invocations. induction subs as [| s subs IH]; [done |].
  rewrite fmap_cons, filter_cons_False; [done |]. cbn. discriminate.
Qed.

Lemma invocations_call (fn : QueryFn) (queryKey : string) (p : Promise) :
  invocations fn [QueryFnCalled queryKey fn p] = 1%nat.
Proof.
  unfold invocations. rewrite filter_cons_True; [done |].
  cbn. by apply bool_decide_eq_true_2.
Qed.

(** A call of [fetchQuery] that starts a fetch invokes the fetch function
    once and registers the promise it got. *)
Lemma fetchQuery_started (w : World) (queryKey : string) (fn : QueryFn)
    (initialData : Value) (p : Promise) :
  eval (fetchQuery queryKey fn initialData) w = Some p →
  let w' := exec (fetchQuery queryKey fn initialData) w in
  promisesInFlight w' !! queryKey = Some p ∧
  invocations fn (trace w') = S (invocations fn (trace w)).
Proof.
  run_cache; try discriminate; intros [= <-].
  all: split; [by rewrite lookup_insert_eq |].
  all: rewrite ?invocations_app, ?invocations_notified, invocations_call; lia.
Qed.

(** C1. While a promise is in flight for a key, [directQuery],
    [backgroundQuery] and [fetchQuery] return at once and leave the world
    (registry and trace of fetch-function calls included) unchanged; so
    [n + 1] calls of [fetchQuery] issued together for a key that has no entry
    invoke the fetch function exactly once, the registry holding the one
    promise of that call, and the same holds whenever the first of the calls
    starts a fetch, direct or background.  The registry maps a key to one
    promise. *)
Theorem C1_dedup (w : World) (queryKey : string) (fn : QueryFn)
    (initialData : Value) (n : nat) :
  (∀ p, promisesInFlight w !! queryKey = Some p →
     directQuery queryKey fn initialData w = (None, w) ∧
     backgroundQuery queryKey fn w = (None, w) ∧
     fetchQuery_times n queryKey fn initialData w = (tt, w)) ∧
  (cache w !! queryKey = None → promisesInFlight w !! queryKey = None →
     let w' := exec (fetchQuery_times (S n) queryKey fn VUndefined) w in
     invocations fn (trace w') = S (invocations fn (trace w)) ∧
     promisesInFlight w' !! queryKey = Some (nextPromise w)) ∧
  (∀ p, eval (fetchQuery queryKey fn initialData) w = Some p →
     let w' := exec (fetchQuery_times (S n) queryKey fn initialData) w in
     invocations fn (trace w') = S (invocations fn (trace w)) ∧
     promisesInFlight w' !! queryKey = Some p) ∧
  (∀ p1 p2, promisesInFlight w !! queryKey = Some p1 →
     promisesInFlight w !! queryKey = Some p2 → p1 = p2).
Proof.
  assert (∀ init p, eval (fetchQuery queryKey fn init) w = Some p →
     let w' := exec (fetchQuery_times (S n) queryKey fn init) w in
     invocations fn (trace w') = S (invocations fn (trace w)) ∧
     promisesInFlight w' !! queryKey = Some p) as Hstart.
  { intros init p Hev.
    destruct (fetchQuery_started w queryKey fn init p Hev) as [Hp Htr].
    cbn [fetchQuery_times]. unfold exec, mbind, M_bind, bind in *.
    destruct (fetchQuery queryKey fn init w) as [r w1]. cbn [snd] in *.
    rewrite fetchQuery_times_idle by (by eapply fetchQuery_in_flight).
    done. }
  split; [| split; [| split]].
  - intros p Hp. split; [by eapply directQuery_in_flight |].
    split; [by eapply backgroundQuery_in_flight |].
    apply fetchQuery_times_idle. by eapply fetchQuery_in_flight.
  - intros Hc Hp.
    destruct (directQuery_starts w queryKey fn VUndefined Hp) as (Hev & _).
    { by rewrite Hc. }
    { by left. }
    apply Hstart. unfold eval, fetchQuery in *. unfold_monad. by rewrite Hc.
  - apply Hstart.
  - congruence.
Qed.

(** ** Settling a fetch *)

Lemma backgroundQuery_eval_Some (w : World) (queryKey : string) (fn : QueryFn)
    (p : Promise) :
  eval (backgroundQuery queryKey fn) w = Some p →
  ∃ entry, cache w !! queryKey = Some entry ∧
    (status (state entry) = Success ∨ status (state entry) = FirstSuccess) ∧
    p = nextPromise w ∧
    awaiting (exec (backgroundQuery queryKey fn) w)
      = <[p := BackgroundTask queryKey fn entry (lastUpdatedAt (state entry))]> (awaiting w).
Proof.
  intros Hev.
  destruct (backgroundQuery_cases w queryKey fn) as [Hc | Hskip].
  - destruct Hc as (Hp & entry & He & Hs & Hst & Hb).
    destruct (backgroundQuery_runs w queryKey fn entry Hp He Hs Hst Hb)
      as (Hev' & _ & _ & Haw & _).
    rewrite Hev' in Hev. injection Hev as <-. by exists entry.
  - unfold eval in Hev. by rewrite Hskip in Hev.
Qed.

Lemma directQuery_eval_Some (w : World) (queryKey : string) (fn : QueryFn)
    (initialData : Value) (p : Promise) :
  eval (directQuery queryKey fn initialData) w = Some p →
  p = nextPromise w ∧
  awaiting (exec (directQuery queryKey fn initialData) w)
    = <[p := DirectTask queryKey fn (cache w !! queryKey)]> (awaiting w).
Proof.
  unfold directQuery. unfold_monad.
  destruct (bool_decide (is_Some (promisesInFlight w !! queryKey))
            || bool_decide (opt_status (cache w !! queryKey) = Some Loading));
    [done |].
  destruct (negb (bool_decide (is_Some (promisesInFlight w !! queryKey)))
            && bool_decide (initialData ≠ VUndefined)
            && bool_decide (opt_data (cache w !! queryKey) = VUndefined)).
  - unfold_cache. cbn. by destruct (subscribers w !! queryKey).
  - unfold_cache. cbn. destruct (subscribers w !! queryKey); cbn;
      intros [= <-]; done.
Qed.

(** The state a settled fetch leaves behind does not depend on the world it
    finds at that time: the entry is overwritten as a whole. *)
Lemma settle_background (w : World) (queryKey : string) (fn : QueryFn)
    (entry : CacheEntry) (prev : Z) (p : Promise) (s : Settlement) :
  awaiting w !! p = Some (BackgroundTask queryKey fn entry prev) →
  let w' := exec (settle p s) w in
  eval (settle p s) w = Some Fulfilled ∧
  promisesInFlight w' !! queryKey = None ∧
  awaiting w' !! p = None ∧
  cache w' !! queryKey =
    Some (mkEntry
            match s with
            | Resolves d => mkState Success d None (clock w)
            | Rejects _ => mkState Success (data (state entry)) None prev
            end (Some fn)).
Proof.
  intros Haw. unfold_cache. rewrite Haw. cbn.
  destruct s as [d | t]; cbn;
    destruct (subscribers w !! queryKey); cbn;
    repeat split; by simplify_map_eq.
Qed.

Lemma settle_direct (w : World) (queryKey : string) (fn : QueryFn)
    (entry : option CacheEntry) (p : Promise) (s : Settlement) :
  awaiting w !! p = Some (DirectTask queryKey fn entry) →
  let w' := exec (settle p s) w in
  eval (settle p s) w = Some Fulfilled ∧
  promisesInFlight w' !! queryKey = None ∧
  awaiting w' !! p = None ∧
  cache w' !! queryKey =
    Some (mkEntry
            match s with
            | Resolves d =>
                mkState (if truthy (opt_data entry) then Success else FirstSuccess)
                  d None (clock w)
            | Rejects t =>
                mkState Error VUndefined (Some (coerceError t)) FORCE_STALE_TIME
            end (Some fn)).
Proof.
  intros Haw. unfold_cache. rewrite Haw. cbn.
  destruct s as [d | t]; cbn;
    destruct (subscribers w !! queryKey); cbn;
    repeat split; try by simplify_map_eq.
  all: rewrite lookup_insert_eq; by destruct (truthy _).
Qed.

(** C2. When [backgroundQuery] starts a fetch on an entry in success or
    first-success state and the fetch function later rejects, then whatever
    happened to the cache in between, the entry afterwards has status
    success, the data and the lastUpdatedAt the entry had when the background
    fetch began, and the promise of the background fetch is fulfilled, not
    rejected. *)
Theorem C2_background_failure_restores (w w2 : World) (queryKey : string)
    (fn : QueryFn) (entry : CacheEntry) (p : Promise) (t : Thrown) :
  cache w !! queryKey = Some entry →
  status (state entry) = Success ∨ status (state entry) = FirstSuccess →
  eval (backgroundQuery queryKey fn) w = Some p →
  awaiting w2 !! p = awaiting (exec (backgroundQuery queryKey fn) w) !! p →
  eval (settle p (Rejects t)) w2 = Some Fulfilled ∧
  (state <$> cache (exec (settle p (Rejects t)) w2) !! queryKey) =
    Some (mkState Success (data (state entry)) None (lastUpdatedAt (state entry))).
Proof.
  intros He Hs Hev Haw.
  destruct (backgroundQuery_eval_Some _ _ _ _ Hev) as (entry' & He' & _ & _ & Haw').
  rewrite He in He'. injection He' as <-.
  rewrite Haw', lookup_insert_eq in Haw.
  destruct (settle_background _ _ _ _ _ _ (Rejects t) Haw) as (Hc & _ & _ & Hcache).
  split; [done |]. by rewrite Hcache.
Qed.

(** C3, as the code has it. When [directQuery] starts a fetch and the fetch
    function later rejects with [t], the entry afterwards has status error,
    holds [t] coerced to an Error, no data and the force-stale sentinel as
    lastUpdatedAt, the in-flight registration of the key is gone, and the
    promise of the direct fetch is fulfilled: the failure shows in the state
    only. *)
Theorem C3_direct_failure_state (w w2 : World) (queryKey : string)
    (fn : QueryFn) (initialData : Value) (p : Promise) (t : Thrown) :
  eval (directQuery queryKey fn initialData) w = Some p →
  awaiting w2 !! p = awaiting (exec (directQuery queryKey fn initialData) w) !! p →
  let w3 := exec (settle p (Rejects t)) w2 in
  cache w3 !! queryKey =
    Some (mkEntry (mkState Error VUndefined (Some (coerceError t)) FORCE_STALE_TIME)
            (Some fn)) ∧
  promisesInFlight w3 !! queryKey = None ∧
  eval (settle p (Rejects t)) w2 = Some Fulfilled.
Proof.
  intros Hev Haw.
  destruct (directQuery_eval_Some _ _ _ _ _ Hev) as (_ & Haw').
  rewrite Haw', lookup_insert_eq in Haw.
  destruct (settle_direct _ _ _ _ _ (Rejects t) Haw) as (Hc & Hp & _ & Hcache).
  done.
Qed.

(** C8, as the code has it. When [directQuery] starts a fetch and the fetch
    function later resolves with [d], the entry afterwards stores [d] with
    the time of the settlement, the in-flight registration of the key is
    gone, and the status is first-success if and only if the entry read when
    the direct fetch began was missing or held no data, success otherwise
    (for held data that is not one of the falsy values). *)
Theorem C8_direct_success_state (w w2 : World) (queryKey : string)
    (fn : QueryFn) (initialData : Value) (p : Promise) (d : Value) :
  eval (directQuery queryKey fn initialData) w = Some p →
  awaiting w2 !! p = awaiting (exec (directQuery queryKey fn initialData) w) !! p →
  opt_data (cache w !! queryKey) = VUndefined ∨
    truthy (opt_data (cache w !! queryKey)) = true →
  let w3 := exec (settle p (Resolves d)) w2 in
  ∃ st, cache w3 !! queryKey = Some (mkEntry (mkState st d None (clock w2)) (Some fn)) ∧
    (st = FirstSuccess ∨ st = Success) ∧
    (st = FirstSuccess ↔ opt_data (cache w !! queryKey) = VUndefined) ∧
    promisesInFlight w3 !! queryKey = None.
Proof.
  intros Hev Haw Hd.
  destruct (directQuery_eval_Some _ _ _ _ _ Hev) as (_ & Haw').
  rewrite Haw', lookup_insert_eq in Haw.
  destruct (settle_direct _ _ _ _ _ (Resolves d) Haw) as (_ & Hp & _ & Hcache).
  cbv zeta. rewrite Hcache. eexists. split; [reflexivity |].
  destruct Hd as [Hd | Hd]; rewrite Hd; cbn.
  - repeat split; auto.
  - repeat split; auto; try discriminate.
    intros Hu. rewrite Hu in Hd. discriminate.
Qed.

(** The remaining case: held data that is falsy ([0], the empty string,
    [false], [null]) counts as no data. *)
Lemma directQuery_resume_falsy (w : World) (queryKey : string) (fn : QueryFn)
    (entry : CacheEntry) (d : Value) :
  truthy (data (state entry)) = false →
  (state <$> cache (exec (directQuery_resume queryKey fn (Some entry) (Resolves d)) w) !! queryKey)
    = Some (mkState FirstSuccess d None (clock w)).
Proof.
  intros Hf. unfold_cache. rewrite Hf. cbn.
  destruct (subscribers w !! queryKey); cbn; by simplify_map_eq.
Qed.

Lemma C2_background_failure_restores_witness :
  eval (settle 1%nat (Rejects Scenario.failed_refresh)) Scenario.revalidating
    = Some Fulfilled ∧
  (state <$> cache (exec (settle 1%nat (Rejects Scenario.failed_refresh))
                      Scenario.revalidating) !! "key")
    = Some (mkState Success (VStr "good data") None 0).
Proof.
  apply (C2_background_failure_restores Scenario.populated Scenario.revalidating
           "key" Scenario.queryFn1 Scenario.populated_entry 1%nat
           Scenario.failed_refresh).
  - vm_compute. reflexivity.
  - right. reflexivity.
  - vm_compute. reflexivity.
  - reflexivity.
Defined.

Lemma C3_direct_failure_state_witness :
  let w3 := exec (settle 0%nat (Rejects Scenario.load_failed)) Scenario.loading in
  cache w3 !! "key" =
    Some (mkEntry (mkState Error VUndefined (Some (mkError "load failed"))
                     FORCE_STALE_TIME) (Some Scenario.queryFn1)) ∧
  promisesInFlight w3 !! "key" = None ∧
  eval (settle 0%nat (Rejects Scenario.load_failed)) Scenario.loading = Some Fulfilled.
Proof.
  apply (C3_direct_failure_state Scenario.fresh Scenario.loading "key"
           Scenario.queryFn1 VUndefined 0%nat Scenario.load_failed).
  - vm_compute. reflexivity.
  - reflexivity.
Defined.

(** C3, as stated, fails: the promise of a direct fetch whose fetch function
    rejected is fulfilled, it does not reject. *)
Lemma C3_direct_failure_not_rethrown :
  eval (fetchQuery "key" Scenario.queryFn1 VUndefined) Scenario.fresh = Some 0%nat ∧
  eval (settle 0%nat (Rejects Scenario.load_failed)) Scenario.loading = Some Fulfilled ∧
  ¬ ∃ e, eval (settle 0%nat (Rejects Scenario.load_failed)) Scenario.loading
         = Some (Rejected e).
Proof.
  split; [vm_compute; reflexivity |].
  split; [vm_compute; reflexivity |].
  intros [e He]. vm_compute in He. discriminate He.
Qed.

Lemma C8_direct_success_state_witness :
  let w3 := exec (settle 0%nat (Resolves (VStr "data"))) Scenario.loading in
  ∃ st, cache w3 !! "key"
        = Some (mkEntry (mkState st (VStr "data") None (clock Scenario.loading))
                  (Some Scenario.queryFn1)) ∧
    (st = FirstSuccess ∨ st = Success) ∧
    (st = FirstSuccess ↔ opt_data (cache Scenario.fresh !! "key") = VUndefined) ∧
    promisesInFlight w3 !! "key" = None.
Proof.
  apply (C8_direct_success_state Scenario.fresh Scenario.loading "key"
           Scenario.queryFn1 VUndefined 0%nat (VStr "data")).
  - vm_compute. reflexivity.
  - reflexivity.
  - left. reflexivity.
Defined.

(** C8, as stated, fails: data was recorded for ["key"] by the first fetch,
    a refetch failed, and the next refetch that resolves yields first-success
    a second time. *)
Lemma C8_first_success_twice :
  let recorded := exec (fetchQuery "key" Scenario.queryFn1 VUndefined;;
                        settle 0%nat (Resolves (VStr "a"))) Scenario.fresh in
  (state <$> cache recorded !! "key")
    = Some (mkState FirstSuccess (VStr "a") None 0) ∧
  (state <$> cache (exec (settle 2%nat (Resolves (VStr "b")))
                      Scenario.refetching_after_error) !! "key")
    = Some (mkState FirstSuccess (VStr "b") None 0).
Proof. split; vm_compute; reflexivity. Qed.

(** C5, on the code: the timeout armed by the last [unsubscribe] is not
    disarmed by the later [subscribe]; when it fires, the entry of the
    watched key and its subscriber set are deleted. *)
Lemma C5_gc_deletes_watched_key :
  eval (getSubscriberCount "key") GcScenario.resubscribed = 1%nat ∧
  (data ∘ state <$> cache GcScenario.resubscribed !! "key") = Some (VStr "data") ∧
  timers GcScenario.resubscribed !! 1%nat = Some (1000, "key") ∧
  cache GcScenario.after_grace_period !! "key" = None ∧
  subscribers GcScenario.after_grace_period !! "key" = None ∧
  eval (getSubscriberCount "key") GcScenario.after_grace_period = 0%nat.
Proof. repeat split; vm_compute; reflexivity. Qed.

(** C7, on the code: [invalidateQuery] writes status success whatever the
    status was.  On an entry in error state it then starts a background
    fetch (a second call of the fetch function, status fetching, no data);
    on a loading entry it leaves status success without data. *)
Lemma C7_invalidate_rewrites_status :
  (state <$> cache InvalidateScenario.failed !! "key")
    = Some (mkState Error VUndefined (Some (mkError "load failed")) FORCE_STALE_TIME) ∧
  (state <$> cache InvalidateScenario.invalidated !! "key")
    = Some (mkState Fetching VUndefined None 10) ∧
  eval (invalidateQuery "key") InvalidateScenario.failed = Some 1%nat ∧
  invocations Scenario.queryFn1 (trace InvalidateScenario.failed) = 1%nat ∧
  invocations Scenario.queryFn1 (trace InvalidateScenario.invalidated) = 2%nat ∧
  (state <$> cache Scenario.loading !! "key")
    = Some (mkState Loading VUndefined None 0) ∧
  (state <$> cache InvalidateScenario.invalidated_while_loading !! "key")
    = Some (mkState Success VUndefined None FORCE_STALE_TIME).
Proof. repeat split; vm_compute; reflexivity. Qed.

(** ** Compositional reasoning *)

Section Respects.
Context (R : World → World → Prop).
Hypothesis R_refl : ∀ w, R w w.
Hypothesis R_trans : ∀ w1 w2 w3, R w1 w2 → R w2 w3 → R w1 w3.

Lemma respects_ret {A} (a : A) : respects R (mret a).
Proof. intros w. apply R_refl. Qed.

Lemma respects_gets {A} (f : World → A) : respects R (gets f).
Proof. intros w. apply R_refl. Qed.

Lemma respects_modify (f : World → World) :
  (∀ w, R w (f w)) → respects R (modify f).
Proof. intros H w. apply H. Qed.

Lemma respects_bind {A B} (c : M A) (k : A → M B) :
  respects R c → (∀ a, respects R (k a)) → respects R (c ≫= k).
Proof.
  intros Hc Hk w. unfold exec, mbind, M_bind, bind.
  specialize (Hc w). unfold exec in Hc.
  destruct (c w) as [a w1]. cbn in Hc.
  eapply R_trans; [exact Hc |]. apply Hk.
Qed.

Lemma respects_fireTimers (ids : list TimerId) :
  (∀ id, respects R (fireTimer id)) → respects R (fireTimers ids).
Proof.
  intros H. induction ids as [| id ids IH]; cbn [fireTimers].
  - apply respects_ret.
  - apply respects_bind; [apply H | intros _; apply IH].
Qed.

End Respects.

(** Break a method body down to its [modify] steps. *)
Ltac respects_structure Hrefl Htrans :=
  repeat lazymatch goal with
    | |- respects _ (mret _) => apply (respects_ret _ Hrefl)
    | |- respects _ (gets _) => apply (respects_gets _ Hrefl)
    | |- respects _ (mbind _ _) => apply (respects_bind _ Htrans); [| intros ?]
    | |- respects _ (modify _) => apply respects_modify
    | |- respects _ (match ?x with _ => _ end) => destruct x eqn:?
    end.

Ltac unfold_methods :=
  unfold fetchQuery, refetchQuery, invalidateQuery, cancelQuery, setData,
    settle, resume, fireTimer,
    directQuery, backgroundQuery, directQuery_resume, backgroundQuery_resume,
    subscribe, unsubscribe, getSubscriberCount, scheduleGC, setTimeout,
    clearTimeout, gcCallback, clear, setAndNotifySubscribers, set,
    notifySubscribers, await, call_queryFn, Date_now in *.

(** ** Per-key isolation *)

Lemma frame_refl (queryKey : string) (w : World) : frame queryKey w w.
Proof.
  constructor; try done. exists []. by rewrite app_nil_r.
Qed.

Lemma frame_trans (queryKey : string) (w1 w2 w3 : World) :
  frame queryKey w1 w2 → frame queryKey w2 w3 → frame queryKey w1 w3.
Proof.
  intros [H1 H2 H3 H4 (l & Hl & Hfl)] [G1 G2 G3 G4 (m & Hm & Hfm)].
  constructor; intros.
  - by rewrite G1, H1.
  - by rewrite G2, H2.
  - by rewrite G3, H3.
  - by rewrite G4, H4.
  - exists (l ++ m). rewrite Hm, Hl, app_assoc. split; [done |].
    by apply Forall_app.
Qed.

(** One [modify] step of a method on [queryKey]. *)
Ltac frame_modify :=
  intros ?w; constructor; cbn;
  [ intros; by rewrite ?lookup_insert_ne, ?lookup_delete_ne by done ..
  | first
      [ by (exists []; rewrite app_nil_r)
      | eexists; split; [reflexivity |];
        first [ by apply Forall_fmap, Forall_true
              | by apply Forall_singleton ] ] ].

Ltac solve_frame :=
  unfold_methods;
  lazymatch goal with
  | |- respects (frame ?k) _ =>
      respects_structure (frame_refl k) (frame_trans k)
  end;
  try frame_modify.

Lemma frame_setAndNotifySubscribers (queryKey : string) (st : QueryState)
    (fn : option QueryFn) :
  respects (frame queryKey) (setAndNotifySubscribers queryKey st fn).
Proof. solve_frame. Qed.

Lemma frame_perform (queryKey : string) (op : KeyedOp) :
  respects (frame queryKey) (perform queryKey op).
Proof. destruct op; unfold perform; solve_frame. Qed.

Lemma timers_unchanged_refl (w : World) : timers_unchanged w w.
Proof. reflexivity. Qed.

Lemma timers_unchanged_trans (w1 w2 w3 : World) :
  timers_unchanged w1 w2 → timers_unchanged w2 w3 → timers_unchanged w1 w3.
Proof. unfold timers_unchanged. congruence. Qed.

Ltac solve_timers_unchanged :=
  unfold_methods;
  respects_structure timers_unchanged_refl timers_unchanged_trans;
  try (intros ?w; reflexivity).

Lemma scheduleGC_timers_elsewhere (w : World) (queryKey : string) :
  timers_wf w → timers_elsewhere queryKey w (exec (scheduleGC queryKey) w).
Proof.
  intros [Hfresh Hown] id v Hv. unfold_cache.
  destruct (gcTimeouts w !! queryKey) as [id0 |] eqn:Hid0; cbn.
  - destruct (Hown _ _ Hid0) as [Hlt Hkey].
    destruct (decide (id0 = 0%nat)) as [-> | Hnz]; cbn.
    + rewrite lookup_insert. case_decide as Heq.
      * subst id. split.
        -- intros [= <-]. done.
        -- intros H. apply Hfresh in H. lia.
      * done.
    + rewrite lookup_insert. case_decide as Heq.
      * subst id. split.
        -- intros [= <-]. done.
        -- intros H. apply Hfresh in H. lia.
      * rewrite lookup_delete. case_decide as Heq'.
        -- subst id. split; [done |]. intros H. by apply Hkey in H.
        -- done.
  - rewrite lookup_insert. case_decide as Heq.
    + subst id. split.
      * intros [= <-]. done.
      * intros H. apply Hfresh in H. lia.
    + done.
Qed.

Lemma unsubscribe_timers_elsewhere (w : World) (queryKey : string)
    (callback : Callback) :
  timers_wf w →
  timers_elsewhere queryKey w (exec (unsubscribe queryKey callback) w).
Proof.
  intros Hwf. unfold unsubscribe, getSubscriberCount. unfold_monad.
  destruct (subscribers w !! queryKey) as [s |]; [| done]. cbn.
  rewrite lookup_insert_eq.
  destruct (decide (length (Set_delete callback s) = 0%nat)); [| done].
  match goal with
  | |- timers_elsewhere _ _ (scheduleGC _ ?w1).2 =>
      change (timers_elsewhere queryKey w1 (exec (scheduleGC queryKey) w1))
  end.
  by apply scheduleGC_timers_elsewhere.
Qed.

Lemma perform_timers_elsewhere (w : World) (queryKey : string) (op : KeyedOp) :
  timers_wf w → timers_elsewhere queryKey w (exec (perform queryKey op) w).
Proof.
  intros Hwf.
  assert (∀ c : M unit, respects timers_unchanged c →
            timers_elsewhere queryKey w (exec c w)) as Hun.
  { intros c Hc id v _. by rewrite (Hc w). }
  destruct op; unfold perform;
    try (apply Hun; solve_timers_unchanged; fail).
  by apply unsubscribe_timers_elsewhere.
Qed.

(** C10. An operation on key [queryKey] leaves the cache entry, the
    subscriber set, the in-flight promise, the GC timer handle and the
    pending GC timeouts of every other key as they were, and calls no
    subscriber of another key; [clear] is the method without a key, and it
    empties the registries at all keys. *)
Theorem C10_per_key_isolation (w : World) (queryKey k' : string) (op : KeyedOp) :
  timers_wf w →
  k' ≠ queryKey →
  isolated_from w queryKey k' op ∧ cleared (exec clear w).
Proof.
  intros Hwf Hne. split.
  - destruct (frame_perform queryKey op w) as [H1 H2 H3 H4 (l & Hl & Hfl)].
    unfold isolated_from. repeat split; auto.
    + by apply (perform_timers_elsewhere w queryKey op Hwf id (due, k')).
    + by apply (perform_timers_elsewhere w queryKey op Hwf id (due, k')).
    + intros callback Hin. rewrite (new_events_app _ _ _ Hl) in Hin.
      rewrite Forall_forall in Hfl. apply Hfl in Hin. cbn in Hin. congruence.
  - intros k. unfold_cache. cbn. by rewrite !lookup_empty.
Qed.

(** ** Invariants of a run *)

Lemma preserves_refl (P : World → Prop) (w : World) : preserves P w w.
Proof. by intros H. Qed.

Lemma preserves_trans (P : World → Prop) (w1 w2 w3 : World) :
  preserves P w1 w2 → preserves P w2 w3 → preserves P w1 w3.
Proof. unfold preserves. auto. Qed.

Lemma preserves_run_steps (P : World → Prop) (steps : list Step) :
  (∀ s, respects (preserves P) (step s)) →
  respects (preserves P) (run_steps steps).
Proof.
  intros H. induction steps as [| s steps IH]; cbn [run_steps].
  - apply respects_ret, preserves_refl.
  - apply respects_bind; [apply preserves_trans | apply H | intros _; apply IH].
Qed.

(** Break a step down to its [modify] steps, timers firing included. *)
Ltac preserves_structure P :=
  unfold step, advance; unfold_methods;
  respects_structure (preserves_refl P) (preserves_trans P);
  try (apply (respects_fireTimers _ (preserves_refl P) (preserves_trans P));
       intros ?; unfold_methods;
       respects_structure (preserves_refl P) (preserves_trans P)).

Lemma step_no_data_ok (s : Step) :
  respects (preserves entries_no_data_ok) (step s).
Proof.
  destruct s; preserves_structure entries_no_data_ok.
  all: intros ?w H_inv ?k ?e; cbn;
    rewrite ?lookup_insert, ?lookup_delete, ?lookup_empty;
    repeat case_decide; try done; try apply H_inv.
  all: intros [= <-]; unfold no_data_ok; cbn; intros [? | ?];
    repeat case_match; done.
Qed.

Lemma newQueryCache_no_data_ok (gc stale : option Z) (t : Z) :
  entries_no_data_ok (newQueryCache gc stale t).
Proof. intros k e. cbn. by rewrite lookup_empty. Qed.

(** [timers_wf] is an invariant of every run. *)
Lemma scheduleGC_timers_wf (queryKey : string) :
  respects (preserves timers_wf) (scheduleGC queryKey).
Proof.
  intros w [Hfresh Hown]. unfold_cache.
  assert (∀ (tm : gmap TimerId (Z * string)) due,
            map_Forall (λ id _, (id < nextTimer w)%nat) tm →
            (∀ id v, tm !! id = Some v → timers w !! id = Some v) →
            timers_wf
              (with_gcTimeouts <[queryKey := nextTimer w]>
                 (with_nextTimer S
                    (with_timers (λ _, <[nextTimer w := (due, queryKey)]> tm) w))))
    as Hgen.
  { intros tm due Htm Hsub. split; cbn.
    - apply map_Forall_insert_2; [lia |].
      intros id v Hid. specialize (Htm id v Hid). cbn in Htm. lia.
    - intros k id. rewrite lookup_insert. case_decide as Hk.
      + intros [= <-]. split; [lia |]. intros v. rewrite lookup_insert_eq.
        by intros [= <-].
      + intros Hid. destruct (Hown k id Hid) as [Hlt Hkey]. split; [lia |].
        intros v. rewrite lookup_insert_ne by lia. intros Hv. eauto. }
  destruct (gcTimeouts w !! queryKey) as [id0 |] eqn:Hid0; cbn.
  - destruct (decide (id0 = 0%nat)); cbn.
    + by apply Hgen.
    + apply (Hgen (delete id0 (timers w))).
      * by apply map_Forall_delete.
      * intros id v. rewrite lookup_delete. by case_decide.
  - by apply Hgen.
Qed.

Lemma step_timers_wf (s : Step) : respects (preserves timers_wf) (step s).
Proof.
  assert (∀ w (f : World → World),
            timers (f w) = timers w → nextTimer (f w) = nextTimer w →
            gcTimeouts (f w) = gcTimeouts w → preserves timers_wf w (f w)) as Hsame.
  { intros w f Ht Hn Hg [H1 H2]. unfold timers_wf. by rewrite Ht, Hn, Hg. }
  destruct s;
    try (preserves_structure timers_wf; intros ?w; by apply Hsame).
  - (* unsubscribe *)
    unfold step, unsubscribe, getSubscriberCount.
    respects_structure (preserves_refl timers_wf) (preserves_trans timers_wf);
      try (intros ?w; by apply Hsame).
    apply scheduleGC_timers_wf.
  - (* clear *)
    preserves_structure timers_wf; try (intros ?w; by apply Hsame).
    intros w [H1 H2]. split; [done |]. cbn. apply map_Forall_empty.
  - (* time passes *)
    preserves_structure timers_wf; try (intros ?w; by apply Hsame).
    + intros w [H1 H2]. split; cbn.
      * by apply map_Forall_delete.
      * intros k i Hi. destruct (H2 k i Hi) as [Hlt Hkey]. split; [exact Hlt |].
        intros v. rewrite lookup_delete.
        destruct (decide _); [intros ?; discriminate | apply Hkey].
    + intros w [H1 H2]. split; [done |]. cbn. by apply map_Forall_delete.
Qed.

Lemma newQueryCache_timers_wf (gc stale : option Z) (t : Z) :
  timers_wf (newQueryCache gc stale t).
Proof. split; cbn; apply map_Forall_empty. Qed.

Lemma run_timers_wf (gc stale : option Z) (t : Z) (steps : list Step) :
  timers_wf (exec (run_steps steps) (newQueryCache gc stale t)).
Proof.
  apply (preserves_run_steps timers_wf steps step_timers_wf).
  apply newQueryCache_timers_wf.
Qed.

Lemma C10_per_key_isolation_witness :
  isolated_from IsolationScenario.two_keys "b" "a" (OpUnsubscribe 2%nat) ∧
  cleared (exec clear IsolationScenario.two_keys).
Proof.
  apply (C10_per_key_isolation IsolationScenario.two_keys "b" "a" (OpUnsubscribe 2%nat)).
  - split; apply map_Forall_to_list; vm_compute; repeat constructor.
    intros v [= <-]. reflexivity.
  - discriminate.
Defined.

(** Run a step on a world symbolically. *)
Ltac run_step := unfold step; run_cache.

Lemma guarded_entry_has_data (w : World) (k : string) (c : CacheEntry) :
  entries_have_data_ok w →
  cache w !! k = Some c →
  bool_decide (status (state c) ≠ Success)
    && bool_decide (status (state c) ≠ FirstSuccess)
    || bool_decide (status (state c) = Fetching) = false →
  is_nullish (data (state c)) = false.
Proof.
  intros [Hinv _] Hc Hg. apply (Hinv k c Hc).
  rewrite success_family_guard in Hg. apply negb_false_iff in Hg.
  apply bool_decide_eq_true_1 in Hg. tauto.
Qed.

Lemma initialData_has_data (b c : bool) (initialData : Value) :
  initialData ≠ VNull →
  b && bool_decide (initialData ≠ VUndefined) && c = true →
  is_nullish initialData = false.
Proof.
  intros Hn H. apply andb_prop in H as [H _]. apply andb_prop in H as [_ H].
  apply bool_decide_eq_true_1 in H. by destruct initialData.
Qed.

(** The entry written by a step holds data when its status says so. *)
Ltac written_has_data Hinv :=
  first
    [ eapply guarded_entry_has_data; [exact Hinv | eassumption | eassumption]
    | eapply initialData_has_data; eassumption
    | eapply (proj2 Hinv); eassumption
    | assumption
    | reflexivity ].

Ltac finish_have_data Hinv :=
  split; cbn;
  [ intros ?k ?e; rewrite ?lookup_insert, ?lookup_delete, ?lookup_empty;
    repeat destruct (decide _); try done; try apply (proj1 Hinv);
    intros [= <-]; unfold has_data_ok; cbn;
    intros [? | [? | ?]]; try discriminate;
    repeat case_match; try discriminate; written_has_data Hinv
  | intros ?p ?k ?fn ?e ?prev;
    rewrite ?lookup_insert, ?lookup_delete, ?lookup_empty;
    repeat destruct (decide _); try done; try apply (proj2 Hinv);
    intros [= <- <- <- <-]; cbn; written_has_data Hinv ].

Lemma advance_have_data_ok (ms : Z) :
  respects (preserves entries_have_data_ok) (advance ms).
Proof.
  preserves_structure entries_have_data_ok.
  all: intros ?w H_inv; try exact H_inv.
  destruct H_inv as [H1 H2]. split; [| exact H2]. cbn.
  intros k e. rewrite lookup_delete. destruct (decide _); [done | apply H1].
Qed.

Lemma step_have_data_ok (w : World) (s : Step) :
  supplies_data w s →
  entries_have_data_ok w →
  entries_have_data_ok (exec (step s) w).
Proof.
  intros Hsup Hinv.
  destruct s; cbn in Hsup.
  10: { by apply advance_have_data_ok. }
  all: run_step; try assumption.
  all: repeat match goal with
         | H : ?x = _, H' : context [match ?x with _ => _ end] |- _ =>
             rewrite H in H'
         end.
  all: try (finish_have_data Hinv; fail).
  (* refetchQuery passes no initial data *)
  all: exfalso;
    match goal with
    | H : _ && bool_decide (VUndefined ≠ VUndefined) && _ = true |- _ =>
        apply andb_prop in H as [H _]; apply andb_prop in H as [_ H];
        apply bool_decide_eq_true_1 in H; by apply H
    end.
Qed.

Lemma newQueryCache_have_data_ok (gc stale : option Z) (t : Z) :
  entries_have_data_ok (newQueryCache gc stale t).
Proof. split; cbn; intros *; by rewrite lookup_empty. Qed.

Lemma run_no_data_ok (gc stale : option Z) (t : Z) (steps : list Step) :
  entries_no_data_ok (exec (run_steps steps) (newQueryCache gc stale t)).
Proof.
  apply (preserves_run_steps entries_no_data_ok steps step_no_data_ok).
  apply newQueryCache_no_data_ok.
Qed.

Lemma run_have_data_ok (steps : list Step) (w : World) :
  run_supplies_data w steps →
  entries_have_data_ok w →
  entries_have_data_ok (exec (run_steps steps) w).
Proof.
  revert w. induction steps as [| s steps IH]; intros w Hsup Hinv; [done |].
  destruct Hsup as [Hs Hrest]. cbn [run_steps].
  unfold exec, mbind, M_bind, bind.
  specialize (IH (exec (step s) w) Hrest (step_have_data_ok w s Hs Hinv)).
  unfold exec in IH. by destruct (step s w).
Qed.

(** C6, as the code has it. In every cache reachable from a new cache by
    calls of the public methods, settling promises and time passing:
    loading and error entries carry no data; and if the run hands the cache
    no null data (initialData, setData argument, resolved value) and
    invalidates only entries that hold data, first-success, success and
    fetching entries carry data that is neither undefined nor null.  Idle
    entries are not constrained: [cancelQuery] keeps the data. *)
Theorem C6_payload_invariant (gc stale : option Z) (t : Z) (steps : list Step)
    (queryKey : string) (entry : CacheEntry) :
  cache (exec (run_steps steps) (newQueryCache gc stale t)) !! queryKey = Some entry →
  (status (state entry) = Loading ∨ status (state entry) = Error →
     data (state entry) = VUndefined) ∧
  (run_supplies_data (newQueryCache gc stale t) steps →
     status (state entry) = FirstSuccess ∨ status (state entry) = Success ∨
       status (state entry) = Fetching →
     is_nullish (data (state entry)) = false).
Proof.
  intros He. split.
  - by apply (run_no_data_ok gc stale t steps queryKey entry).
  - intros Hsup.
    destruct (run_have_data_ok steps _ Hsup (newQueryCache_have_data_ok gc stale t))
      as [Hinv _].
    by apply (Hinv queryKey entry).
Qed.

Lemma C6_payload_invariant_witness :
  let entry := mkEntry (mkState FirstSuccess (VStr "data") None 0) (Some 1%nat) in
  let steps := [SFetchQuery "key" 1%nat VUndefined;
                SSettle 0%nat (Resolves (VStr "data"))] in
  (status (state entry) = Loading ∨ status (state entry) = Error →
     data (state entry) = VUndefined) ∧
  (run_supplies_data (newQueryCache None None 0) steps →
     status (state entry) = FirstSuccess ∨ status (state entry) = Success ∨
       status (state entry) = Fetching →
     is_nullish (data (state entry)) = false).
Proof.
  apply (C6_payload_invariant None None 0
           [SFetchQuery "key" 1%nat VUndefined;
            SSettle 0%nat (Resolves (VStr "data"))] "key").
  vm_compute. reflexivity.
Defined.

(** C6, as stated, fails: cancelling a background fetch leaves an idle entry
    that still carries the data. *)
Lemma C6_idle_entry_with_data :
  (state <$> cache PayloadScenario.cancelled !! "key")
    = Some (mkState Idle (VStr "data") None FORCE_STALE_TIME) ∧
  ¬ payload_as_stated (mkState Idle (VStr "data") None FORCE_STALE_TIME).
Proof.
  split; [vm_compute; reflexivity |].
  intros (_ & _ & Hidle). specialize (Hidle eq_refl). discriminate Hidle.
Qed.

(** ** The mutation protocol *)

Module MutationProofs.
Import Mutation.

Ltac unfold_mutate :=
  cbv [run mutate try_catch call emit setState set_context get_context throw
       mbind mret X_bind X_ret xbind xret context events].

(** C9, as the code has it. In every run of [mutate] with an onSettled
    callback, whether the mutation function resolves or rejects, whether or
    not onMutate, onSuccess and onError are given, and whether or not
    onMutate or onSuccess throw: if neither onError nor onSettled throws,
    onSettled fires exactly once, as the last step of the run, and every
    onSuccess / onError call comes after the [setState] to success / error. *)
Theorem C9_onSettled_once (options : UseMutationOptions) (variables : Value) :
  is_Some (onSettled options) →
  never_throws_onError options →
  never_throws_onSettled options →
  let tr := (run options variables).1 in
  settled_count tr = 1%nat ∧ settled_last tr = true ∧
  terminal_state_first false false tr = true.
Proof.
  intros [settled Hsettled] HnoE HnoS.
  destruct options as [fn om os oe ost]. cbn in Hsettled. subst ost.
  unfold never_throws_onError, never_throws_onSettled in *. cbn in HnoE, HnoS.
  assert (∀ d e v c, settled d e v c = Returns tt) as Hs by (intros; by apply HnoS).
  assert (∀ cb, oe = Some cb → ∀ e v c, cb e v c = Returns tt) as He
    by (intros; by apply HnoE).
  clear HnoE HnoS.
  unfold_mutate. cbn.
  destruct om as [om |]; [destruct (om variables) as [c | t] |];
    destruct oe as [oe |]; cbn; rewrite ?Hs, ?(He _ eq_refl); cbn;
    try (repeat split; reflexivity).
  all: destruct (fn variables) as [d | t]; cbn;
    rewrite ?Hs, ?(He _ eq_refl); cbn;
    try (repeat split; reflexivity).
  all: destruct os as [os |]; cbn; rewrite ?Hs, ?(He _ eq_refl); cbn;
    try (repeat split; reflexivity).
  all: lazymatch goal with
       | |- context [match ?r with Returns _ => _ | Throws _ => _ end] =>
           destruct r as [[] | t]
       end;
    cbn; rewrite ?Hs, ?(He _ eq_refl); cbn; repeat split; reflexivity.
Qed.

Lemma C9_onSettled_once_witness :
  let tr := (run rollback_options (VStr "todo")).1 in
  settled_count tr = 1%nat ∧ settled_last tr = true ∧
  terminal_state_first false false tr = true.
Proof.
  apply (C9_onSettled_once rollback_options (VStr "todo")).
  - eexists. reflexivity.
  - intros cb e v c [= <-]. reflexivity.
  - intros cb d e v c [= <-]. reflexivity.
Defined.

(** C9, as stated, fails: [onSettled] is called inside the [try] block, so
    when it throws there the [catch] block calls it a second time; and when
    onError throws, onSettled is not called at all. *)
Lemma C9_onSettled_not_once :
  (run settled_throws_options (VStr "todo")).1 =
    [SetState (mkMutationState MLoading VUndefined None);
     CalledMutationFn (VStr "todo");
     SetState (mkMutationState MSuccess (VStr "todo") None);
     CalledOnSettled (VStr "todo") None (VStr "todo") VUndefined;
     SetState (mkMutationState MError VUndefined (Some (mkError "settled failed")));
     CalledOnSettled VUndefined (Some (mkError "settled failed")) (VStr "todo") VUndefined] ∧
  settled_count (run settled_throws_options (VStr "todo")).1 = 2%nat ∧
  settled_count (run error_throws_options (VStr "todo")).1 = 0%nat.
Proof. repeat split; vm_compute; reflexivity. Qed.

End MutationProofs.

(** * More of the code: proofs *)

Lemma exec_bind {A B} (c : M A) (k : A → M B) (w : World) :
  exec (c ≫= k) w = exec (k (eval c w)) (exec c w).
Proof. unfold exec, eval, mbind, M_bind, bind. by destruct (c w). Qed.

Lemma eval_bind {A B} (c : M A) (k : A → M B) (w : World) :
  eval (c ≫= k) w = eval (k (eval c w)) (exec c w).
Proof. unfold exec, eval, mbind, M_bind, bind. by destruct (c w). Qed.

(** ** Subscribers *)

Lemma Set_add_NoDup (cb : Callback) (s : list Callback) :
  NoDup s → NoDup (Set_add cb s).
Proof.
  intros H. unfold Set_add. destruct (decide (cb ∈ s)); [done |].
  apply NoDup_app. repeat split; [done | | apply NoDup_singleton].
  intros x Hx Hx'. apply list_elem_of_singleton in Hx'. by subst.
Qed.

Lemma Set_add_nonempty (cb : Callback) (s : list Callback) : Set_add cb s ≠ [].
Proof.
  unfold Set_add. destruct (decide (cb ∈ s)) as [Hin | Hin].
  - intros ->. by apply elem_of_nil in Hin.
  - by destruct s.
Qed.

Lemma step_subscribers_wf (s : Step) :
  respects (preserves subscribers_wf) (step s).
Proof.
  assert (∀ w (f : World → World),
            subscribers (f w) = subscribers w → preserves subscribers_wf w (f w)) as Hsame.
  { intros w f Hs H. unfold subscribers_wf. by rewrite Hs. }
  assert (∀ w k, preserves subscribers_wf w (with_subscribers (delete k) w)) as Hdel.
  { intros w k H k' s'. cbn. rewrite lookup_delete. destruct (decide _); [done | apply H]. }
  destruct s;
    try (preserves_structure subscribers_wf; intros ?w; first [by apply Hsame | by apply Hdel]).
  - (* subscribe *)
    intros w H. run_step. intros k s. cbn.
    rewrite lookup_insert. destruct (decide _); [| apply H].
    intros [= <-]. split; [apply Set_add_nonempty |].
    apply Set_add_NoDup. destruct (subscribers w !! queryKey) as [s0 |] eqn:Hs0; cbn.
    + by apply (H _ _ Hs0).
    + apply NoDup_nil_2.
  - (* unsubscribe *)
    intros w H. run_step; try done.
    all: intros k s; cbn;
      destruct (decide (k = queryKey)) as [-> | Hne];
      rewrite ?lookup_delete_eq, ?lookup_insert_eq,
        ?lookup_delete_ne, ?lookup_insert_ne by done;
      try done; try apply H.
    intros [= <-].
    match goal with
    | Hs : subscribers w !! _ = Some ?l |- _ => destruct (H _ _ Hs) as [_ Hnd]
    end.
    split.
    + intros Hnil.
      match goal with Hn : length _ ≠ 0%nat |- _ => apply Hn end.
      by rewrite Hnil.
    + by apply NoDup_filter.
  - (* clear *)
    preserves_structure subscribers_wf; try (intros ?w; by apply Hsame).
    intros w H k s. cbn. by rewrite lookup_empty.
Qed.

Lemma newQueryCache_subscribers_wf (gc stale : option Z) (t : Z) :
  subscribers_wf (newQueryCache gc stale t).
Proof. intros k s. cbn. by rewrite lookup_empty. Qed.

(** X1. In every cache reachable from a new one, each stored subscriber set
    has at least one member and no callback twice; hence the subscriber
    count of a key is zero exactly when the registry has no set for it. *)
Theorem subscriber_sets_in_runs (gc stale : option Z) (t : Z) (steps : list Step)
    (queryKey : string) :
  let w := exec (run_steps steps) (newQueryCache gc stale t) in
  subscribers_wf w ∧
  (eval (getSubscriberCount queryKey) w = 0%nat ↔ subscribers w !! queryKey = None).
Proof.
  intros w.
  assert (subscribers_wf w) as Hwf.
  { apply (preserves_run_steps subscribers_wf steps step_subscribers_wf).
    apply newQueryCache_subscribers_wf. }
  split; [done |]. unfold_cache.
  destruct (subscribers w !! queryKey) as [s |] eqn:Hs; [| done].
  destruct (Hwf _ _ Hs) as [Hne _]. split; [| done].
  intros Hlen. by destruct s.
Qed.

Lemma Set_add_idempotent (cb : Callback) (s : list Callback) :
  Set_add cb (Set_add cb s) = Set_add cb s.
Proof.
  unfold Set_add. destruct (decide (cb ∈ s)) as [Hin | Hin].
  - by rewrite decide_True.
  - rewrite decide_True; [done |]. apply elem_of_app. right.
    by apply list_elem_of_singleton.
Qed.

(** X2. Subscribing a callback a second time changes nothing: the set
    semantics of the registry makes [subscribe] idempotent, and after a
    subscription the callback is a member of the key's set. *)
Theorem subscribe_idempotent (w : World) (queryKey : string) (callback : Callback) :
  exec (subscribe queryKey callback;; subscribe queryKey callback) w
    = exec (subscribe queryKey callback) w ∧
  ∃ s, subscribers (exec (subscribe queryKey callback) w) !! queryKey = Some s ∧
       callback ∈ s.
Proof.
  split.
  - unfold_cache. cbn. rewrite lookup_insert_eq. cbn.
    rewrite Set_add_idempotent. unfold with_subscribers. cbn.
    by rewrite insert_insert_eq.
  - unfold_cache. cbn. rewrite lookup_insert_eq. eexists. split; [done |].
    unfold Set_add. destruct (decide _); [done |].
    apply elem_of_app. right. by apply list_elem_of_singleton.
Qed.

(** ** The GC scheduler *)

(** What [unsubscribe] does when the last subscriber of a key leaves. *)
Lemma unsubscribe_last (w : World) (queryKey : string) (callback : Callback)
    (s : list Callback) :
  subscribers w !! queryKey = Some s →
  Set_delete callback s = [] →
  let w' := exec (unsubscribe queryKey callback) w in
  subscribers w' = delete queryKey (subscribers w) ∧
  queryKey ∈ gcQueue w' ∧
  gcTimeouts w' = <[queryKey := nextTimer w]> (gcTimeouts w) ∧
  timers w' !! nextTimer w = Some (clock w + gcTime w, queryKey) ∧
  nextTimer w' = S (nextTimer w) ∧
  (∀ id, gcTimeouts w !! queryKey = Some id → id ≠ 0%nat → id ≠ nextTimer w →
         timers w' !! id = None) ∧
  cache w' = cache w ∧ promisesInFlight w' = promisesInFlight w ∧
  clock w' = clock w ∧ trace w' = trace w.
Proof.
  intros Hs Hdel. run_cache; simplify_eq.
  all: try match goal with
       | Hn : length (Set_delete _ _) ≠ 0%nat |- _ =>
           exfalso; apply Hn; by rewrite Hdel
       end.
  all: rewrite ?delete_insert_eq; repeat split; try done; try set_solver;
    try (by rewrite lookup_insert_eq).
  intros id [= <-] ? ?. by rewrite lookup_insert_ne, lookup_delete_eq.
Qed.

Lemma fireTimer_due (w : World) (id : TimerId) (due : Z) (queryKey : string) :
  timers w !! id = Some (due, queryKey) →
  due ≤ clock w →
  gone queryKey (exec (fireTimer id) w).
Proof.
  intros Ht Hdue. unfold_cache. rewrite Ht. cbn.
  rewrite (bool_decide_eq_true_2 _ Hdue). cbn.
  repeat split; apply lookup_delete_eq.
Qed.

Lemma fireTimer_keeps_gone (queryKey : string) (id : TimerId) :
  respects (preserves (gone queryKey)) (fireTimer id).
Proof.
  preserves_structure (gone queryKey).
  all: intros ?w (H1 & H2 & H3 & H4); repeat split; cbn; try done.
  all: rewrite lookup_delete; by destruct (decide _).
Qed.

Lemma fireTimer_keeps_timer (w : World) (id id' : TimerId) :
  id ≠ id' →
  timers (exec (fireTimer id') w) !! id = timers w !! id ∧
  clock (exec (fireTimer id') w) = clock w.
Proof.
  intros Hne. run_cache; split; try done. by rewrite lookup_delete_ne.
Qed.

Lemma fireTimers_fires (ids : list TimerId) (w : World) (id : TimerId)
    (due : Z) (queryKey : string) :
  NoDup ids → id ∈ ids →
  timers w !! id = Some (due, queryKey) →
  due ≤ clock w →
  gone queryKey (exec (fireTimers ids) w).
Proof.
  revert w. induction ids as [| i ids IH]; intros w Hnd Hin Ht Hdue.
  - by apply elem_of_nil in Hin.
  - apply NoDup_cons in Hnd as [Hni Hnd]. cbn [fireTimers]. rewrite exec_bind.
    apply elem_of_cons in Hin as [-> | Hin].
    + apply (respects_fireTimers _ (preserves_refl _) (preserves_trans _) ids
               (fireTimer_keeps_gone queryKey)).
      by eapply fireTimer_due.
    + assert (id ≠ i) as Hne by (intros ->; done).
      destruct (fireTimer_keeps_timer w id i Hne) as [Hk Hc].
      apply IH; [done | done | by rewrite Hk | by rewrite Hc].
Qed.

(** Once a pending timeout is due, letting time pass removes its key from
    the four registries. *)
Lemma advance_collects (w : World) (id : TimerId) (due ms : Z) (queryKey : string) :
  timers w !! id = Some (due, queryKey) →
  due ≤ clock w + ms →
  gone queryKey (exec (advance ms) w).
Proof.
  intros Ht Hdue. unfold advance. rewrite !exec_bind.
  apply (fireTimers_fires _ _ id due queryKey); [| | done | done].
  - apply NoDup_fst_map_to_list.
  - apply list_elem_of_fmap. exists (id, (due, queryKey)). split; [done |].
    by apply elem_of_map_to_list.
Qed.

(** X3. When the last subscriber of a key unsubscribes and the grace period
    then elapses with no other call, the key is absent from the entry store,
    the in-flight registry, the subscriber registry and the timer slots. *)
Theorem gc_after_last_unsubscribe (w : World) (queryKey : string)
    (callback : Callback) (s : list Callback) (ms : Z) :
  subscribers w !! queryKey = Some s →
  Set_delete callback s = [] →
  gcTime w ≤ ms →
  gone queryKey (exec (unsubscribe queryKey callback;; advance ms) w).
Proof.
  intros Hs Hdel Hms.
  destruct (unsubscribe_last w queryKey callback s Hs Hdel)
    as (_ & _ & _ & Ht & _ & _ & _ & _ & Hc & _).
  rewrite exec_bind.
  eapply advance_collects; [exact Ht |]. rewrite Hc. lia.
Qed.

Lemma gc_after_last_unsubscribe_witness :
  gone "key"
    (exec (unsubscribe "key" 1%nat;; advance 300000)
       (exec (subscribe "key" 1%nat) Scenario.fresh)).
Proof.
  apply (gc_after_last_unsubscribe
           (exec (subscribe "key" 1%nat) Scenario.fresh) "key" 1%nat [1%nat] 300000).
  - vm_compute. reflexivity.
  - vm_compute. reflexivity.
  - vm_compute. discriminate.
Defined.

(** The pending timeouts once [scheduleGC] has cleared the existing one. *)
Lemma scheduleGC_effect (w : World) (queryKey : string) :
  let w' := exec (scheduleGC queryKey) w in
  let remaining :=
    match gcTimeouts w !! queryKey with
    | Some id => if decide (id = 0%nat) then timers w else delete id (timers w)
    | None => timers w
    end in
  timers w' = <[nextTimer w := (clock w + gcTime w, queryKey)]> remaining ∧
  gcTimeouts w' = <[queryKey := nextTimer w]> (gcTimeouts w) ∧
  nextTimer w' = S (nextTimer w).
Proof.
  unfold_cache.
  destruct (gcTimeouts w !! queryKey) as [id0 |]; cbn;
    [destruct (decide (id0 = 0%nat)); cbn |]; done.
Qed.

Lemma scheduleGC_timers_tracked (queryKey : string) :
  respects (preserves timers_tracked) (scheduleGC queryKey).
Proof.
  intros w (Hpos & Hnz & Htr).
  destruct (scheduleGC_effect w queryKey) as (Ht & Hg & Hn).
  unfold timers_tracked. rewrite Ht, Hg, Hn. clear Ht Hg Hn.
  split; [lia |]. split.
  - intros k i. rewrite lookup_insert. destruct (decide _); [| apply Hnz].
    intros [= <-]. lia.
  - intros i v. rewrite lookup_insert. destruct (decide _) as [<- | Hne].
    { intros [= <-]. cbn. by rewrite lookup_insert_eq. }
    intros Hv.
    assert (timers w !! i = Some v ∧ gcTimeouts w !! queryKey ≠ Some i) as [Hv' Hni].
    { destruct (gcTimeouts w !! queryKey) as [id0 |] eqn:Hid0; [| done].
      destruct (decide (id0 = 0%nat)) as [-> | Hz].
      - split; [done |]. intros [= <-]. by eapply Hnz.
      - rewrite lookup_delete in Hv. destruct (decide _) as [<- | Hd]; [done |].
        split; [done |]. congruence. }
    pose proof (Htr _ _ Hv') as Hg.
    destruct (decide (v.2 = queryKey)) as [Hk | Hk].
    + rewrite Hk in Hg. done.
    + by rewrite lookup_insert_ne.
Qed.

Lemma fireTimer_timers_tracked (id : TimerId) :
  respects (preserves timers_tracked) (fireTimer id).
Proof.
  intros w (Hpos & Hnz & Htr). run_cache; try done.
  split; [done |]. split; cbn.
  - intros k i. rewrite lookup_delete. destruct (decide _); [done | apply Hnz].
  - intros i v. rewrite lookup_delete. destruct (decide _) as [<- | Hne]; [done |].
    intros Hv. pose proof (Htr _ _ Hv) as Hg.
    match goal with
    | Ht : timers w !! id = Some (_, ?k) |- _ =>
        pose proof (Htr _ _ Ht) as Hg'; cbn in Hg';
        destruct (decide (v.2 = k)) as [Hk | Hk];
        [rewrite Hk in Hg; congruence | by rewrite lookup_delete_ne]
    end.
Qed.

Lemma step_timers_tracked (s : Step) :
  s ≠ SClear → respects (preserves timers_tracked) (step s).
Proof.
  intros Hs.
  assert (∀ w (f : World → World),
            timers (f w) = timers w → nextTimer (f w) = nextTimer w →
            gcTimeouts (f w) = gcTimeouts w → preserves timers_tracked w (f w)) as Hsame.
  { intros w f Ht Hn Hg H. unfold timers_tracked. by rewrite Ht, Hn, Hg. }
  destruct s; try done;
    try (preserves_structure timers_tracked; intros ?w; by apply Hsame).
  - unfold step, unsubscribe, getSubscriberCount.
    respects_structure (preserves_refl timers_tracked) (preserves_trans timers_tracked);
      try (intros ?w; by apply Hsame).
    apply scheduleGC_timers_tracked.
  - unfold step, advance.
    respects_structure (preserves_refl timers_tracked) (preserves_trans timers_tracked);
      try (intros ?w; by apply Hsame).
    apply (respects_fireTimers _ (preserves_refl _) (preserves_trans _)).
    apply fireTimer_timers_tracked.
Qed.

Lemma run_timers_tracked (steps : list Step) (w : World) :
  no_clear steps → timers_tracked w → timers_tracked (exec (run_steps steps) w).
Proof.
  revert w. induction steps as [| s steps IH]; intros w Hnc Hw; [done |].
  apply Forall_cons in Hnc as [Hs Hnc]. cbn [run_steps]. rewrite exec_bind.
  apply IH; [done |]. by apply step_timers_tracked.
Qed.

(** X4. As long as [clear] is not called, re-arming replaces: at any time
    at most one GC timeout is pending per key, and it is the one whose handle
    the key's timer slot holds. *)
Theorem one_pending_timeout_per_key (gc stale : option Z) (t : Z)
    (steps : list Step) (id1 id2 : TimerId) (v1 v2 : Z * string) :
  no_clear steps →
  let w := exec (run_steps steps) (newQueryCache gc stale t) in
  timers w !! id1 = Some v1 → timers w !! id2 = Some v2 → v1.2 = v2.2 →
  id1 = id2 ∧ gcTimeouts w !! v1.2 = Some id1.
Proof.
  intros Hnc w H1 H2 Hk.
  assert (timers_tracked w) as (_ & _ & Htr).
  { apply run_timers_tracked; [done |]. repeat split; cbn; [lia | |].
    - intros k id. by rewrite lookup_empty.
    - intros id v. by rewrite lookup_empty. }
  pose proof (Htr _ _ H1) as G1. pose proof (Htr _ _ H2) as G2.
  rewrite Hk in G1. split; [congruence |]. by rewrite Hk.
Qed.

Lemma one_pending_timeout_per_key_witness :
  let steps := [SSetData "a" (VStr "x"); SSubscribe "a" 1%nat; SUnsubscribe "a" 1%nat;
                SSubscribe "a" 2%nat; SUnsubscribe "a" 2%nat] in
  let w := exec (run_steps steps) (newQueryCache None None 0) in
  2%nat = 2%nat ∧ gcTimeouts w !! (300000, "a").2 = Some 2%nat.
Proof.
  apply (one_pending_timeout_per_key None None 0
           [SSetData "a" (VStr "x"); SSubscribe "a" 1%nat; SUnsubscribe "a" 1%nat;
            SSubscribe "a" 2%nat; SUnsubscribe "a" 2%nat]
           2%nat 2%nat (300000, "a") (300000, "a")).
  - repeat constructor; discriminate.
  - vm_compute. reflexivity.
  - vm_compute. reflexivity.
  - reflexivity.
Defined.

(** X5. [clear] empties the registries but cancels no timeout: a GC timeout
    that was pending for a key before [clear] still fires when it is due and
    deletes the entry written for that key after [clear]. *)
Theorem clear_keeps_pending_timeouts (w : World) (id : TimerId) (due ms : Z)
    (queryKey : string) (d : Value) :
  timers w !! id = Some (due, queryKey) →
  due ≤ clock w + ms →
  timers (exec clear w) = timers w ∧
  is_Some (cache (exec (clear;; setData queryKey d) w) !! queryKey) ∧
  cache (exec (clear;; setData queryKey d;; advance ms) w) !! queryKey = None.
Proof.
  intros Ht Hdue. split; [done |]. split.
  - run_cache; by rewrite lookup_insert_eq.
  - rewrite !exec_bind.
    assert (timers (exec (setData queryKey d) (exec clear w)) = timers w ∧
            clock (exec (setData queryKey d) (exec clear w)) = clock w) as [Ht' Hc'].
    { run_cache; done. }
    eapply advance_collects.
    + by rewrite Ht'.
    + by rewrite Hc'.
Qed.

Lemma clear_keeps_pending_timeouts_witness :
  let w := GcScenario.resubscribed in
  timers (exec clear w) = timers w ∧
  is_Some (cache (exec (clear;; setData "key" (VStr "new")) w) !! "key") ∧
  cache (exec (clear;; setData "key" (VStr "new");; advance 500) w) !! "key" = None.
Proof.
  apply (clear_keeps_pending_timeouts GcScenario.resubscribed 1%nat 1000 500 "key"
           (VStr "new")).
  - vm_compute. reflexivity.
  - vm_compute. discriminate.
Defined.

(** ** Fetches under way *)

Section FetchWf.
Context (c : gmap string CacheEntry) (pr : gmap string Promise)
  (aw : gmap Promise Task) (np : Promise).
Hypothesis Hwf : fetch_wf_maps c pr aw np.

Lemma wfm_write (k : string) (e : CacheEntry) :
  ¬ busy e → fetch_wf_maps (<[k := e]> c) pr aw np.
Proof.
  destruct Hwf as (H1 & H2 & H3). intros Hb. split; [| split].
  - intros k0 p0 Hp0. destruct (H1 _ _ Hp0) as (Hc & Ht). split; [| done].
    rewrite lookup_insert. by destruct (decide _).
  - exact H2.
  - intros k0 e0. rewrite lookup_insert. destruct (decide _); [| by apply H3].
    intros [= <-] Hbusy. done.
Qed.

Lemma wfm_start (k : string) (e : CacheEntry) (t : Task) :
  task_key t = k → queryFn e = None →
  fetch_wf_maps (<[k := e]> c) (<[k := np]> pr) (<[np := t]> aw) (S np).
Proof.
  destruct Hwf as (H1 & H2 & H3). intros Ht He. split; [| split].
  - intros k0 p. destruct (decide (k0 = k)) as [-> | Hne].
    + rewrite !lookup_insert_eq. intros [= <-]. split; [done |].
      exists t. by rewrite lookup_insert_eq.
    + rewrite !lookup_insert_ne by done.
      intros Hp. destruct (H1 _ _ Hp) as (Hc & t' & Ht' & Hk). split; [done |].
      exists t'. split; [| done]. rewrite lookup_insert_ne; [done |].
      apply H2 in Ht'. lia.
  - intros p t'. rewrite lookup_insert. destruct (decide _) as [<- | Hne]; [lia |].
    intros Hp. apply H2 in Hp. lia.
  - intros k0 e0. destruct (decide (k0 = k)) as [-> | Hne].
    + rewrite !lookup_insert_eq. intros [= <-] _. done.
    + rewrite !lookup_insert_ne by done. by apply H3.
Qed.

Lemma wfm_finish (k : string) (e : CacheEntry) (p : Promise) (t : Task) :
  aw !! p = Some t → task_key t = k → ¬ busy e →
  fetch_wf_maps (<[k := e]> c) (delete k pr) (delete p aw) np.
Proof.
  destruct Hwf as (H1 & H2 & H3). intros Hp Ht Hb. split; [| split].
  - intros k0 p0. destruct (decide (k0 = k)) as [-> | Hne].
    { by rewrite lookup_delete_eq. }
    rewrite lookup_delete_ne, lookup_insert_ne by done.
    intros Hp0. destruct (H1 _ _ Hp0) as (Hc & t' & Ht' & Hk).
    split; [done |]. exists t'. split; [| done].
    rewrite lookup_delete_ne; [done |]. intros ->. congruence.
  - intros p0 t0. rewrite lookup_delete. destruct (decide _); [done | apply H2].
  - intros k0 e0. destruct (decide (k0 = k)) as [-> | Hne].
    + rewrite lookup_insert_eq. intros [= <-] Hbusy. done.
    + rewrite lookup_delete_ne, lookup_insert_ne by done. by apply H3.
Qed.

Lemma wfm_cancel (k : string) (e : CacheEntry) :
  ¬ busy e → fetch_wf_maps (<[k := e]> c) (delete k pr) aw np.
Proof.
  destruct Hwf as (H1 & H2 & H3). intros Hb. split; [| split].
  - intros k0 p0. destruct (decide (k0 = k)) as [-> | Hne].
    { by rewrite lookup_delete_eq. }
    rewrite lookup_delete_ne, lookup_insert_ne by done. apply H1.
  - exact H2.
  - intros k0 e0. destruct (decide (k0 = k)) as [-> | Hne].
    + rewrite lookup_insert_eq. intros [= <-] Hbusy. done.
    + rewrite lookup_delete_ne, lookup_insert_ne by done. by apply H3.
Qed.

Lemma wfm_gc (k : string) : fetch_wf_maps (delete k c) (delete k pr) aw np.
Proof.
  destruct Hwf as (H1 & H2 & H3). split; [| split].
  - intros k0 p0. destruct (decide (k0 = k)) as [-> | Hne].
    { by rewrite lookup_delete_eq. }
    rewrite !lookup_delete_ne by done. apply H1.
  - exact H2.
  - intros k0 e0. destruct (decide (k0 = k)) as [-> | Hne].
    { by rewrite lookup_delete_eq. }
    rewrite !lookup_delete_ne by done. apply H3.
Qed.

Lemma wfm_clear : fetch_wf_maps ∅ ∅ aw np.
Proof.
  destruct Hwf as (H1 & H2 & H3). split; [| split]; [| exact H2 |];
    intros *; by rewrite lookup_empty.
Qed.

End FetchWf.

Ltac not_busy := unfold busy; cbn; intros [? | ?]; repeat case_match; done.

(** Recognise the effect of a step on the maps of [fetch_wf]. *)
Ltac fetch_shapes H :=
  unfold fetch_wf in *; cbn;
  repeat first
    [ exact H
    | apply wfm_start; [| reflexivity | reflexivity]
    | eapply wfm_finish; [| eassumption | reflexivity | solve [not_busy]]
    | apply wfm_cancel; [| solve [not_busy]]
    | apply wfm_write; [| solve [not_busy]]
    | apply wfm_gc
    | apply (wfm_clear _ _ _ _ H) ].

Lemma fireTimer_fetch_wf (id : TimerId) :
  respects (preserves fetch_wf) (fireTimer id).
Proof. intros w H. run_cache; fetch_shapes H. Qed.

Lemma step_fetch_wf (s : Step) : respects (preserves fetch_wf) (step s).
Proof.
  destruct s.
  10: { unfold step, advance.
        respects_structure (preserves_refl fetch_wf) (preserves_trans fetch_wf).
        - by intros w H.
        - apply (respects_fireTimers _ (preserves_refl _) (preserves_trans _)).
          apply fireTimer_fetch_wf. }
  all: intros w H; run_step; fetch_shapes H.
Qed.

Lemma newQueryCache_fetch_wf (gc stale : option Z) (t : Z) :
  fetch_wf (newQueryCache gc stale t).
Proof.
  split; [| split]; cbn; intros *; by rewrite lookup_empty.
Qed.

Lemma run_fetch_wf (gc stale : option Z) (t : Z) (steps : list Step) :
  fetch_wf (exec (run_steps steps) (newQueryCache gc stale t)).
Proof.
  apply (preserves_run_steps fetch_wf steps step_fetch_wf).
  apply newQueryCache_fetch_wf.
Qed.



(** X7. In every reachable cache, a promise registered in the in-flight
    registry belongs to a key that has an entry and is still awaited by a
    suspended fetch of that key: when it settles, either way, the key's
    registration is removed.  No registration outlives its fetch. *)
Theorem registered_promise_is_pending (gc stale : option Z) (t : Z)
    (steps : list Step) (queryKey : string) (p : Promise) :
  let w := exec (run_steps steps) (newQueryCache gc stale t) in
  promisesInFlight w !! queryKey = Some p →
  is_Some (cache w !! queryKey) ∧
  (∃ task, awaiting w !! p = Some task ∧ task_key task = queryKey) ∧
  ∀ s, promisesInFlight (exec (settle p s) w) !! queryKey = None ∧
       awaiting (exec (settle p s) w) !! p = None.
Proof.
  intros w Hp.
  destruct (run_fetch_wf gc stale t steps) as (H1 & _ & _).
  destruct (H1 _ _ Hp) as (Hc & task & Ht & Hk). fold w in Ht.
  split; [done |]. split; [by exists task |].
  intros s. destruct task as [k fn e | k fn e prev]; cbn in Hk; subst k.
  - by destruct (settle_direct w queryKey fn e p s Ht) as (_ & ? & ? & _).
  - by destruct (settle_background w queryKey fn e prev p s Ht) as (_ & ? & ? & _).
Qed.

Lemma registered_promise_is_pending_witness :
  let w := exec (run_steps [SFetchQuery "key" 1%nat VUndefined]) (newQueryCache None None 0) in
  is_Some (cache w !! "key") ∧
  (∃ task, awaiting w !! 0%nat = Some task ∧ task_key task = "key") ∧
  ∀ s, promisesInFlight (exec (settle 0%nat s) w) !! "key" = None ∧
       awaiting (exec (settle 0%nat s) w) !! 0%nat = None.
Proof.
  apply (registered_promise_is_pending None None 0
           [SFetchQuery "key" 1%nat VUndefined] "key" 0%nat).
  vm_compute. reflexivity.
Defined.

Lemma step_error_ok (s : Step) : respects (preserves entries_error_ok) (step s).
Proof.
  destruct s; preserves_structure entries_error_ok.
  all: intros ?w H_inv ?k ?e; cbn;
    rewrite ?lookup_insert, ?lookup_delete, ?lookup_empty;
    repeat case_decide; try done; try apply H_inv.
  all: intros [= <-]; unfold error_ok; cbn; split;
    [ intros ?; repeat case_match; try done; by eexists
    | intros [? ?]; repeat case_match; done ].
Qed.

Lemma run_error_ok (gc stale : option Z) (t : Z) (steps : list Step) :
  entries_error_ok (exec (run_steps steps) (newQueryCache gc stale t)).
Proof.
  apply (preserves_run_steps entries_error_ok steps step_error_ok).
  intros k e. cbn. by rewrite lookup_empty.
Qed.

(** X8. In every reachable cache the error field of an entry is set exactly
    when its status is error. *)
Theorem error_field_in_runs (gc stale : option Z) (t : Z) (steps : list Step)
    (queryKey : string) (entry : CacheEntry) :
  cache (exec (run_steps steps) (newQueryCache gc stale t)) !! queryKey = Some entry →
  status (state entry) = Error ↔ is_Some (error (state entry)).
Proof.
  intros He. by apply (run_error_ok gc stale t steps queryKey entry).
Qed.

Lemma error_field_in_runs_witness :
  let entry := mkEntry (mkState Error VUndefined (Some (mkError "load failed"))
                          FORCE_STALE_TIME) (Some 1%nat) in
  status (state entry) = Error ↔ is_Some (error (state entry)).
Proof.
  apply (error_field_in_runs None None 0
           [SFetchQuery "key" 1%nat VUndefined; SSettle 0%nat (Rejects Scenario.load_failed)]
           "key").
  vm_compute. reflexivity.
Defined.

(** ** What the methods do, beyond the claims *)

(** X9. Initial data skip: [fetchQuery] with initial data on a key without
    entry writes first-success with that data and the current time, records
    the fetch function, calls no fetch function and registers nothing; on a
    key that has an entry the initial data is ignored. *)
Theorem fetchQuery_initialData (w : World) (queryKey : string) (fn : QueryFn)
    (initialData : Value) :
  initialData ≠ VUndefined →
  (cache w !! queryKey = None → promisesInFlight w !! queryKey = None →
     let w' := exec (fetchQuery queryKey fn initialData) w in
     eval (fetchQuery queryKey fn initialData) w = None ∧
     cache w' !! queryKey
       = Some (mkEntry (mkState FirstSuccess initialData None (clock w)) (Some fn)) ∧
     (∀ fn', invocations fn' (trace w') = invocations fn' (trace w)) ∧
     promisesInFlight w' = promisesInFlight w ∧ awaiting w' = awaiting w) ∧
  (is_Some (cache w !! queryKey) →
     fetchQuery queryKey fn initialData w = backgroundQuery queryKey fn w).
Proof.
  intros Hinit. split.
  - intros Hc Hp. unfold fetchQuery, directQuery. unfold_monad.
    rewrite Hc. cbn. rewrite Hp, Hc.
    rewrite (bool_decide_eq_false_2 (is_Some None)) by (by intros [? ?]).
    rewrite (bool_decide_eq_true_2 _ Hinit). cbn.
    unfold_cache. cbn.
    rewrite (bool_decide_eq_false_2 (None = Some Loading)) by done.
    rewrite (bool_decide_eq_true_2 (VUndefined = VUndefined)) by done.
    destruct (subscribers w !! queryKey); cbn;
      (split; [done |]; split; [by rewrite lookup_insert_eq |];
       split; [| done]; intros fn';
       rewrite ?invocations_app, ?invocations_notified; cbn; lia).
  - intros [e He]. unfold fetchQuery. unfold_monad. by rewrite He.
Qed.

Lemma fetchQuery_initialData_witness :
  let w := Scenario.fresh in
  let w' := exec (fetchQuery "key" 1%nat (VStr "initial data")) w in
  eval (fetchQuery "key" 1%nat (VStr "initial data")) w = None ∧
  cache w' !! "key"
    = Some (mkEntry (mkState FirstSuccess (VStr "initial data") None (clock w)) (Some 1%nat)) ∧
  (∀ fn', invocations fn' (trace w') = invocations fn' (trace w)) ∧
  promisesInFlight w' = promisesInFlight w ∧ awaiting w' = awaiting w.
Proof.
  apply (fetchQuery_initialData Scenario.fresh "key" 1%nat (VStr "initial data")).
  - discriminate.
  - vm_compute. reflexivity.
  - vm_compute. reflexivity.
Defined.

(** X10. [refetchQuery] on an entry that records a fetch function and has no
    fetch under way starts a direct fetch however fresh the entry is: the
    fetch function is called once, its promise is registered, and the entry
    is replaced by a loading entry without data and without fetch function. *)
Theorem refetchQuery_fetches (w : World) (queryKey : string) (entry : CacheEntry)
    (fn : QueryFn) :
  cache w !! queryKey = Some entry →
  queryFn entry = Some fn →
  status (state entry) ≠ Loading →
  promisesInFlight w !! queryKey = None →
  let w' := exec (refetchQuery queryKey) w in
  eval (refetchQuery queryKey) w = inr (Some (nextPromise w)) ∧
  cache w' !! queryKey
    = Some (mkEntry (mkState Loading VUndefined None (clock w)) None) ∧
  promisesInFlight w' !! queryKey = Some (nextPromise w) ∧
  awaiting w' !! nextPromise w = Some (DirectTask queryKey fn (Some entry)) ∧
  invocations fn (trace w') = S (invocations fn (trace w)).
Proof.
  intros He Hfn Hst Hp.
  destruct (directQuery_starts w queryKey fn VUndefined Hp)
    as (Hev & Hc & Hpr & Haw & Htr).
  { rewrite He. cbn. congruence. }
  { by left. }
  assert (refetchQuery queryKey w
          = (inr (eval (directQuery queryKey fn VUndefined) w),
             exec (directQuery queryKey fn VUndefined) w)) as Hre.
  { unfold refetchQuery, eval, exec. unfold_monad. rewrite He. cbn. rewrite Hfn.
    by destruct (directQuery queryKey fn VUndefined w). }
  unfold eval, exec in *. rewrite Hre. cbn [fst snd].
  rewrite Hev, Hc, Hpr, Haw, Htr, He, !lookup_insert_eq.
  repeat split.
  rewrite !invocations_app, invocations_notified, invocations_call. lia.
Qed.

Lemma refetchQuery_fetches_witness :
  let w := Scenario.populated in
  let w' := exec (refetchQuery "key") w in
  eval (refetchQuery "key") w = inr (Some (nextPromise w)) ∧
  cache w' !! "key"
    = Some (mkEntry (mkState Loading VUndefined None (clock w)) None) ∧
  promisesInFlight w' !! "key" = Some (nextPromise w) ∧
  awaiting w' !! nextPromise w
    = Some (DirectTask "key" Scenario.queryFn1 (Some Scenario.populated_entry)) ∧
  invocations Scenario.queryFn1 (trace w')
    = S (invocations Scenario.queryFn1 (trace w)).
Proof.
  apply (refetchQuery_fetches Scenario.populated "key" Scenario.populated_entry
           Scenario.queryFn1).
  - vm_compute. reflexivity.
  - reflexivity.
  - discriminate.
  - vm_compute. reflexivity.
Defined.

(** X11. Background order: when [backgroundQuery] goes ahead, the entry is
    fetching and still shows the previous data; when the fetch function
    then resolves with [d], whatever happened in between, the entry is
    success with [d], the time of the settlement and the fetch function, and
    the registration is gone. *)
Theorem background_revalidation (w w2 : World) (queryKey : string) (fn : QueryFn)
    (p : Promise) (d : Value) :
  eval (backgroundQuery queryKey fn) w = Some p →
  awaiting w2 !! p = awaiting (exec (backgroundQuery queryKey fn) w) !! p →
  (∃ entry, cache w !! queryKey = Some entry ∧
     cache (exec (backgroundQuery queryKey fn) w) !! queryKey
       = Some (mkEntry (mkState Fetching (data (state entry)) None (clock w)) None)) ∧
  cache (exec (settle p (Resolves d)) w2) !! queryKey
    = Some (mkEntry (mkState Success d None (clock w2)) (Some fn)) ∧
  promisesInFlight (exec (settle p (Resolves d)) w2) !! queryKey = None.
Proof.
  intros Hev Haw.
  destruct (backgroundQuery_eval_Some _ _ _ _ Hev) as (entry & He & Hs & -> & Haw').
  rewrite Haw', lookup_insert_eq in Haw.
  destruct (settle_background _ _ _ _ _ _ (Resolves d) Haw) as (_ & Hp & _ & Hc).
  split; [| done]. exists entry. split; [done |].
  destruct (backgroundQuery_cases w queryKey fn) as [Hcond | Hskip].
  - destruct Hcond as (Hpn & entry' & He' & Hs' & Hst & Hb).
    rewrite He in He'. injection He' as <-.
    destruct (backgroundQuery_runs w queryKey fn entry Hpn He Hs' Hst Hb)
      as (_ & Hc' & _).
    by rewrite Hc', lookup_insert_eq.
  - unfold eval in Hev. by rewrite Hskip in Hev.
Qed.

Lemma background_revalidation_witness :
  let w := Scenario.populated in
  let w2 := Scenario.revalidating in
  (∃ entry, cache w !! "key" = Some entry ∧
     cache (exec (backgroundQuery "key" Scenario.queryFn1) w) !! "key"
       = Some (mkEntry (mkState Fetching (data (state entry)) None (clock w)) None)) ∧
  cache (exec (settle 1%nat (Resolves (VStr "newer data"))) w2) !! "key"
    = Some (mkEntry (mkState Success (VStr "newer data") None (clock w2))
              (Some Scenario.queryFn1)) ∧
  promisesInFlight (exec (settle 1%nat (Resolves (VStr "newer data"))) w2) !! "key" = None.
Proof.
  apply (background_revalidation Scenario.populated Scenario.revalidating "key"
           Scenario.queryFn1 1%nat (VStr "newer data")).
  - vm_compute. reflexivity.
  - reflexivity.
Defined.

Lemma setAndNotifySubscribers_effect (queryKey : string) (st : QueryState)
    (fn : option QueryFn) (w : World) :
  setAndNotifySubscribers queryKey st fn w
  = (tt, with_trace
           (λ t, t ++ (Notified queryKey <$> default [] (subscribers w !! queryKey)))
           (with_cache <[queryKey := mkEntry st fn]> w)).
Proof.
  unfold_cache. cbn. destruct (subscribers w !! queryKey); cbn; [done |].
  unfold with_trace, with_cache. cbn. by rewrite app_nil_r.
Qed.

(** X12. [invalidateQuery] on an entry that records a fetch function, with
    no fetch under way and staleTime not above the clock, starts a
    background fetch whatever the entry's status and age, also inside the
    buffer window after a first success: the fetch function is called once,
    and the entry is fetching with the data it had. *)
Theorem invalidateQuery_revalidates (w : World) (queryKey : string)
    (entry : CacheEntry) (fn : QueryFn) :
  cache w !! queryKey = Some entry →
  queryFn entry = Some fn →
  promisesInFlight w !! queryKey = None →
  staleTime w ≤ clock w →
  let w' := exec (invalidateQuery queryKey) w in
  eval (invalidateQuery queryKey) w = Some (nextPromise w) ∧
  cache w' !! queryKey
    = Some (mkEntry (mkState Fetching (data (state entry)) None (clock w)) None) ∧
  promisesInFlight w' !! queryKey = Some (nextPromise w) ∧
  invocations fn (trace w') = S (invocations fn (trace w)).
Proof.
  intros He Hfn Hp Hst.
  set (st := mkState Success (data (state entry)) None FORCE_STALE_TIME).
  set (w1 := exec (setAndNotifySubscribers queryKey st (Some fn)) w).
  assert (invalidateQuery queryKey w = backgroundQuery queryKey fn w1) as Hinv.
  { unfold invalidateQuery, w1, exec. unfold_monad. rewrite He, Hfn. fold st.
    by destruct (setAndNotifySubscribers queryKey st (Some fn) w). }
  assert (w1 = with_trace
            (λ t, t ++ (Notified queryKey <$> default [] (subscribers w !! queryKey)))
            (with_cache <[queryKey := mkEntry st (Some fn)]> w)) as Hw1.
  { unfold w1, exec. by rewrite setAndNotifySubscribers_effect. }
  destruct (backgroundQuery_runs w1 queryKey fn (mkEntry st (Some fn)))
    as (Hev & Hc & Hpr & _ & Htr).
  { by rewrite Hw1. }
  { rewrite Hw1. cbn. by rewrite lookup_insert_eq. }
  { by left. }
  { rewrite Hw1. cbn. unfold FORCE_STALE_TIME. lia. }
  { intros [[=] _]. }
  unfold eval, exec in *. rewrite Hinv, Hev, Hc, Hpr, Htr, !lookup_insert_eq.
  rewrite Hw1. cbn. repeat split.
  rewrite !invocations_app, !invocations_notified, invocations_call. lia.
Qed.

Lemma invalidateQuery_revalidates_witness :
  let w := exec (fetchQuery "key" 1%nat (VStr "initial data")) Scenario.fresh in
  let entry := mkEntry (mkState FirstSuccess (VStr "initial data") None 0) (Some 1%nat) in
  let w' := exec (invalidateQuery "key") w in
  eval (invalidateQuery "key") w = Some (nextPromise w) ∧
  cache w' !! "key"
    = Some (mkEntry (mkState Fetching (data (state entry)) None (clock w)) None) ∧
  promisesInFlight w' !! "key" = Some (nextPromise w) ∧
  invocations 1%nat (trace w') = S (invocations 1%nat (trace w)).
Proof.
  apply (invalidateQuery_revalidates
           (exec (fetchQuery "key" 1%nat (VStr "initial data")) Scenario.fresh) "key"
           (mkEntry (mkState FirstSuccess (VStr "initial data") None 0) (Some 1%nat))
           1%nat).
  - vm_compute. reflexivity.
  - reflexivity.
  - vm_compute. reflexivity.
  - vm_compute. discriminate.
Defined.

(** ** Cancelling *)

Lemma cancelQuery_effect (w : World) (queryKey : string) (p : Promise)
    (entry : CacheEntry) :
  promisesInFlight w !! queryKey = Some p →
  cache w !! queryKey = Some entry →
  cancelQuery queryKey w
  = (tt, with_trace
           (λ t, t ++ (Notified queryKey <$> default [] (subscribers w !! queryKey)))
           (with_cache
              <[queryKey := mkEntry (mkState Idle (data (state entry)) None FORCE_STALE_TIME)
                              (queryFn entry)]>
              (with_promisesInFlight (delete queryKey) w))).
Proof.
  intros Hp He. unfold cancelQuery. unfold_monad. rewrite Hp, He.
  rewrite (bool_decide_eq_true_2 (is_Some (Some p))) by (by eexists).
  by rewrite setAndNotifySubscribers_effect.
Qed.

Lemma cancelQuery_noop (w : World) (queryKey : string) :
  promisesInFlight w !! queryKey = None ∨ cache w !! queryKey = None →
  cancelQuery queryKey w = (tt, w).
Proof.
  intros H. unfold cancelQuery. unfold_monad.
  destruct H as [H | H]; rewrite H; [done |].
  by destruct (bool_decide _).
Qed.

(** [cancelQuery] does nothing on a key without a promise in flight or
    without an entry; otherwise it unregisters the promise and writes an
    idle entry with the data and fetch function the entry had and the
    force-stale time, calls no fetch function, and leaves the suspended
    fetch suspended. *)
Lemma cancelQuery_behaviour (w : World) (queryKey : string) :
  (promisesInFlight w !! queryKey = None ∨ cache w !! queryKey = None →
     cancelQuery queryKey w = (tt, w)) ∧
  (∀ p entry, promisesInFlight w !! queryKey = Some p →
     cache w !! queryKey = Some entry →
     let w' := exec (cancelQuery queryKey) w in
     cache w' !! queryKey
       = Some (mkEntry (mkState Idle (data (state entry)) None FORCE_STALE_TIME)
                 (queryFn entry)) ∧
     promisesInFlight w' !! queryKey = None ∧
     awaiting w' = awaiting w ∧
     ∀ fn, invocations fn (trace w') = invocations fn (trace w)).
Proof.
  split; [apply cancelQuery_noop |].
  - intros p entry Hp He. unfold exec.
    rewrite (cancelQuery_effect _ _ _ _ Hp He). cbn.
    split; [by rewrite lookup_insert_eq |].
    split; [by rewrite lookup_delete_eq |].
    split; [done |].
    intros fn. rewrite invocations_app, invocations_notified. lia.
Qed.

Ltac inflight_cases H :=
  let k := fresh "k" in
  let Hp := fresh "Hp" in
  let He := fresh "He" in
  unfold inflight_no_fn in *; intros k ? ?; cbn;
  repeat match goal with
  | |- context [<[?q := _]> _ !! k] =>
      destruct (decide (k = q)) as [-> | ?];
      [ rewrite ?lookup_insert_eq, ?lookup_delete_eq
      | rewrite ?lookup_insert_ne, ?lookup_delete_ne by done ]
  | |- context [delete ?q _ !! k] =>
      destruct (decide (k = q)) as [-> | ?];
      [ rewrite ?lookup_insert_eq, ?lookup_delete_eq
      | rewrite ?lookup_insert_ne, ?lookup_delete_ne by done ]
  end;
  try rewrite lookup_empty;
  intros Hp He; simplify_eq; cbn;
  first
    [ done
    | by eauto
    | match goal with
      | Hq : promisesInFlight _ !! ?q = Some _,
        Hb : context [bool_decide (is_Some (promisesInFlight _ !! ?q))] |- _ =>
          rewrite Hq in Hb;
          rewrite (bool_decide_eq_true_2 (is_Some (Some _))) in Hb by (by eexists);
          by cbn in Hb
      end
    | match goal with
      | Hb : context [bool_decide (VUndefined ≠ VUndefined)] |- _ =>
          rewrite (bool_decide_eq_false_2 (VUndefined ≠ VUndefined)) in Hb
            by (by intros ?);
          cbn in Hb; by rewrite ?andb_false_r in Hb
      end
    | match goal with
      | Hq : promisesInFlight _ !! ?q = Some _, Hc : cache _ !! ?q = Some _ |- _ =>
          pose proof (H _ _ _ Hq Hc); congruence
      end
    | match goal with
      | |- context [cache ?w !! ?q] =>
          destruct (cache w !! q) eqn:?; cbn; by eauto
      end ].

Lemma fireTimer_inflight_no_fn (id : TimerId) :
  respects (preserves inflight_no_fn) (fireTimer id).
Proof. intros w H. run_cache; try exact H; inflight_cases H. Qed.

Lemma step_inflight_no_fn (s : Step) : respects (preserves inflight_no_fn) (step s).
Proof.
  destruct s.
  10: { unfold step, advance.
        respects_structure (preserves_refl inflight_no_fn)
                           (preserves_trans inflight_no_fn).
        - by intros w H.
        - apply (respects_fireTimers _ (preserves_refl _) (preserves_trans _)).
          apply fireTimer_inflight_no_fn. }
  all: intros w H; run_step; try exact H; inflight_cases H.
Qed.

Lemma run_inflight_no_fn (gc stale : option Z) (t : Z) (steps : list Step) :
  inflight_no_fn (exec (run_steps steps) (newQueryCache gc stale t)).
Proof.
  apply (preserves_run_steps inflight_no_fn steps step_inflight_no_fn).
  intros k p e. cbn. by rewrite lookup_empty.
Qed.

(** X13. In every reachable cache, cancelling a key that has a fetch under
    way leaves an idle entry without fetch function: from then on
    [fetchQuery] on the key returns at once without calling any fetch
    function, whatever function and initial data it is given, and
    [refetchQuery] fails with its no-queryFn error. *)
Theorem cancelled_query_is_not_refetched (gc stale : option Z) (t : Z)
    (steps : list Step) (queryKey : string) (p : Promise) :
  let w := exec (run_steps steps) (newQueryCache gc stale t) in
  let w' := exec (cancelQuery queryKey) w in
  promisesInFlight w !! queryKey = Some p →
  (∃ entry, cache w !! queryKey = Some entry ∧
     cache w' !! queryKey
       = Some (mkEntry (mkState Idle (data (state entry)) None FORCE_STALE_TIME) None)) ∧
  (∀ fn initialData, fetchQuery queryKey fn initialData w' = (None, w')) ∧
  refetchQuery queryKey w'
    = (inl (mkError ("No queryFn found for queryKey: " +:+ queryKey)), w').
Proof.
  intros w w' Hp.
  destruct (run_fetch_wf gc stale t steps) as (H1 & _ & _).
  destruct (H1 _ _ Hp) as [[entry He] _]. fold w in He.
  pose proof (run_inflight_no_fn gc stale t steps _ _ _ Hp He) as Hfn.
  assert (cache w' !! queryKey
          = Some (mkEntry (mkState Idle (data (state entry)) None FORCE_STALE_TIME) None))
    as He'.
  { unfold w', exec. rewrite (cancelQuery_effect _ _ _ _ Hp He). cbn.
    by rewrite lookup_insert_eq, Hfn. }
  split; [by exists entry |]. split.
  - intros fn initialData. unfold fetchQuery. unfold_monad. rewrite He'.
    destruct (backgroundQuery_cases w' queryKey fn) as [Hc | Hskip]; [| done].
    destruct Hc as (_ & e & He2 & [Hs | Hs] & _); rewrite He' in He2;
      by injection He2 as <-.
  - unfold refetchQuery. unfold_monad. by rewrite He'.
Qed.

Lemma cancelled_query_is_not_refetched_witness :
  let w := exec (run_steps [SFetchQuery "key" 1%nat VUndefined]) (newQueryCache None None 0) in
  let w' := exec (cancelQuery "key") w in
  (∃ entry, cache w !! "key" = Some entry ∧
     cache w' !! "key"
       = Some (mkEntry (mkState Idle (data (state entry)) None FORCE_STALE_TIME) None)) ∧
  (∀ fn initialData, fetchQuery "key" fn initialData w' = (None, w')) ∧
  refetchQuery "key" w'
    = (inl (mkError ("No queryFn found for queryKey: " +:+ "key")), w').
Proof.
  apply (cancelled_query_is_not_refetched None None 0
           [SFetchQuery "key" 1%nat VUndefined] "key" 0%nat).
  vm_compute. reflexivity.
Defined.

Lemma setData_awaiting (queryKey : string) (d : Value) (w : World) :
  awaiting (exec (setData queryKey d) w) = awaiting w.
Proof.
  unfold setData, exec. unfold_monad. unfold Date_now. unfold_monad.
  by rewrite setAndNotifySubscribers_effect.
Qed.

Lemma setData_cache (queryKey : string) (d : Value) (w : World) :
  cache (exec (setData queryKey d) w) !! queryKey
  = Some (mkEntry (mkState Success d None (clock w)) (cache w !! queryKey ≫= queryFn)).
Proof.
  unfold setData, exec. unfold_monad. unfold Date_now. unfold_monad.
  rewrite setAndNotifySubscribers_effect. cbn. by rewrite lookup_insert_eq.
Qed.

Lemma cancelQuery_awaiting (queryKey : string) (w : World) :
  awaiting (exec (cancelQuery queryKey) w) = awaiting w.
Proof.
  destruct (promisesInFlight w !! queryKey) as [p |] eqn:Hp.
  - destruct (cache w !! queryKey) as [e |] eqn:He.
    + unfold exec. by rewrite (cancelQuery_effect _ _ _ _ Hp He).
    + unfold exec. rewrite cancelQuery_noop; eauto.
  - unfold exec. rewrite cancelQuery_noop; eauto.
Qed.

(** ** Entries that nobody unsubscribed from *)

Lemma run_steps_app (steps1 steps2 : list Step) (w : World) :
  exec (run_steps (steps1 ++ steps2)) w
  = exec (run_steps steps2) (exec (run_steps steps1) w).
Proof.
  revert w. induction steps1 as [| s steps1 IH]; intros w; [done |].
  cbn [app run_steps]. by rewrite !exec_bind, IH.
Qed.

Lemma entries_kept_refl (w : World) : entries_kept w w.
Proof. by intros H. Qed.

Lemma entries_kept_trans (w1 w2 w3 : World) :
  entries_kept w1 w2 → entries_kept w2 w3 → entries_kept w1 w3.
Proof.
  intros H12 H23 H. destruct (H12 H) as [H2 Hc2]. destruct (H23 H2) as [H3 Hc3].
  split; [done |]. intros k Hk. by apply Hc3, Hc2.
Qed.

Lemma step_entries_kept (s : Step) :
  keeps_entries s → respects entries_kept (step s).
Proof.
  destruct s; cbn [keeps_entries]; intros Hs; try (exfalso; exact Hs).
  8: { intros w Ht. unfold step, advance, exec. unfold_monad. cbn.
       rewrite Ht, map_to_list_empty. cbn. done. }
  all: intros w Ht; run_step; (split; [exact Ht |]); intros k Hk; try exact Hk.
  all: cbn; try (destruct (decide (k = queryKey)) as [-> | Hne];
    [ by rewrite lookup_insert_eq | by rewrite !lookup_insert_ne ]).
Qed.

Lemma run_entries_kept (steps : list Step) :
  Forall keeps_entries steps → respects entries_kept (run_steps steps).
Proof.
  induction 1 as [| s steps Hs _ IH]; cbn [run_steps].
  - intros w. apply entries_kept_refl.
  - intros w. rewrite exec_bind.
    eapply entries_kept_trans; [by apply step_entries_kept | apply IH].
Qed.

(** X14. Only [unsubscribe] arms the garbage collector.  In a run without
    [unsubscribe] and [clear], however long and with whatever subscribers,
    fetches, settlements and passing of time, no timeout is ever pending
    and an entry, once it exists, is never removed. *)
Theorem entries_persist_without_unsubscribe (gc stale : option Z) (t : Z)
    (steps1 steps2 : list Step) (queryKey : string) :
  Forall keeps_entries steps1 →
  Forall keeps_entries steps2 →
  let w1 := exec (run_steps steps1) (newQueryCache gc stale t) in
  let w2 := exec (run_steps (steps1 ++ steps2)) (newQueryCache gc stale t) in
  timers w2 = ∅ ∧
  (is_Some (cache w1 !! queryKey) → is_Some (cache w2 !! queryKey)).
Proof.
  intros H1 H2 w1 w2.
  destruct (run_entries_kept steps1 H1 (newQueryCache gc stale t) eq_refl)
    as [Ht1 _]. fold w1 in Ht1.
  destruct (run_entries_kept steps2 H2 w1 Ht1) as [Ht2 Hc].
  unfold w2. rewrite run_steps_app. fold w1.
  split; [done | apply Hc].
Qed.

Lemma entries_persist_without_unsubscribe_witness :
  let steps1 := [SFetchQuery "key" 1%nat VUndefined;
                 SSettle 0%nat (Resolves (VStr "data"))] in
  let steps2 := [SSubscribe "key" 1%nat; SAdvance 86400000] in
  let w1 := exec (run_steps steps1) (newQueryCache None None 0) in
  let w2 := exec (run_steps (steps1 ++ steps2)) (newQueryCache None None 0) in
  timers w2 = ∅ ∧ (is_Some (cache w1 !! "key") → is_Some (cache w2 !! "key")).
Proof.
  apply (entries_persist_without_unsubscribe None None 0
           [SFetchQuery "key" 1%nat VUndefined; SSettle 0%nat (Resolves (VStr "data"))]
           [SSubscribe "key" 1%nat; SAdvance 86400000] "key").
  - repeat constructor.
  - repeat constructor.
Defined.

(** ** Fetches that outlive what is done to their key *)

(** Until it settles, a suspended fetch stays suspended. *)
Lemma step_keeps_awaiting (p : Promise) (task : Task) (s : Step) (w : World) :
  not_settling p s →
  fetch_wf w →
  awaiting w !! p = Some task →
  awaiting (exec (step s) w) !! p = Some task.
Proof.
  intros Hs (_ & Hfresh & _) Haw. specialize (Hfresh _ _ Haw).
  destruct s; cbn [not_settling] in Hs.
  10: { unfold step, advance.
        revert w Hfresh Haw.
        change (respects (λ w w', (p < nextPromise w)%nat → awaiting w !! p = Some task →
                                  awaiting w' !! p = Some task)
                  (modify (with_clock (λ t, t + ms));;
                   ids ← gets (λ w, (map_to_list (timers w)).*1); fireTimers ids)).
        set (R := λ w w' : World, nextPromise w' = nextPromise w ∧
                                  awaiting w' = awaiting w).
        assert (respects R (modify (with_clock (λ t, t + ms));;
                   ids ← gets (λ w, (map_to_list (timers w)).*1); fireTimers ids)) as HR.
        { assert (∀ w, R w w) as Hrefl by done.
          assert (∀ w1 w2 w3, R w1 w2 → R w2 w3 → R w1 w3) as Htrans.
          { intros ? ? ? [? ?] [? ?]. split; congruence. }
          respects_structure Hrefl Htrans.
          - by intros w.
          - apply (respects_fireTimers _ Hrefl Htrans).
            intros id w. unfold R. run_cache; done. }
        intros w _ Haw. destruct (HR w) as [_ ->]. done. }
  all: revert Haw; run_step; intros Haw; try exact Haw.
  all: try (rewrite lookup_insert_ne; [exact Haw | lia]).
  all: by rewrite lookup_delete_ne.
Qed.

Lemma run_keeps_awaiting (p : Promise) (task : Task) (steps : list Step) (w : World) :
  Forall (not_settling p) steps →
  fetch_wf w →
  awaiting w !! p = Some task →
  awaiting (exec (run_steps steps) w) !! p = Some task.
Proof.
  intros Hs. revert w. induction Hs as [| s steps Hs _ IH]; intros w Hwf Haw; [done |].
  cbn [run_steps]. rewrite exec_bind. apply IH.
  - by apply step_fetch_wf.
  - by apply step_keeps_awaiting.
Qed.

(** X15. Nothing but its own settlement ends a fetch.  In every reachable
    cache, once a promise is in flight for a key, then whatever is done
    afterwards short of settling that promise (cancelling the key, setting
    its data, clearing the cache, collecting the entry), when the promise
    resolves the key's entry is written anew: success or first-success with
    the resolved value, the time of the settlement and a fetch function. *)
Theorem nothing_stops_a_fetch (gc stale : option Z) (t : Z)
    (steps1 steps2 : list Step) (queryKey : string) (p : Promise) (d : Value) :
  let w1 := exec (run_steps steps1) (newQueryCache gc stale t) in
  let w2 := exec (run_steps (steps1 ++ steps2)) (newQueryCache gc stale t) in
  promisesInFlight w1 !! queryKey = Some p →
  Forall (not_settling p) steps2 →
  ∃ st fn,
    cache (exec (settle p (Resolves d)) w2) !! queryKey
      = Some (mkEntry (mkState st d None (clock w2)) (Some fn)) ∧
    (st = Success ∨ st = FirstSuccess).
Proof.
  intros w1 w2 Hp Hs.
  pose proof (run_fetch_wf gc stale t steps1) as Hwf. fold w1 in Hwf.
  destruct (proj1 Hwf _ _ Hp) as [_ (task & Haw & Hk)].
  assert (awaiting w2 !! p = Some task) as Haw2.
  { unfold w2. rewrite run_steps_app. by apply run_keeps_awaiting. }
  destruct task as [k fn e0 | k fn e0 prev]; cbn in Hk; subst k.
  - destruct (settle_direct _ _ _ _ _ (Resolves d) Haw2) as (_ & _ & _ & Hc).
    eexists _, fn. split; [exact Hc |]. destruct (truthy _); eauto.
  - destruct (settle_background _ _ _ _ _ _ (Resolves d) Haw2) as (_ & _ & _ & Hc).
    eexists _, fn. split; [exact Hc |]. eauto.
Qed.

Lemma nothing_stops_a_fetch_witness :
  let steps1 := [SFetchQuery "key" 1%nat VUndefined] in
  let steps2 := [SCancelQuery "key"; SSetData "key" (VStr "manual"); SClear] in
  let w2 := exec (run_steps (steps1 ++ steps2)) (newQueryCache None None 0) in
  ∃ st fn,
    cache (exec (settle 0%nat (Resolves (VStr "late"))) w2) !! "key"
      = Some (mkEntry (mkState st (VStr "late") None (clock w2)) (Some fn)) ∧
    (st = Success ∨ st = FirstSuccess).
Proof.
  apply (nothing_stops_a_fetch None None 0 [SFetchQuery "key" 1%nat VUndefined]
           [SCancelQuery "key"; SSetData "key" (VStr "manual"); SClear] "key" 0%nat
           (VStr "late")).
  - vm_compute. reflexivity.
  - repeat constructor.
Defined.

(** ** What the hook shows *)

(** X16. What [useQuery] returns for a key of a reachable cache, entry or
    not: the error is the error of the state; the data is the data of the
    state unless the state is idle (the data a cancelled entry keeps is not
    shown); the error flag is set exactly when an error is shown, the
    loading flag exactly when the cache is loading, the success flag exactly
    in success and first-success, which are both reported as success. *)
Theorem useQuery_result_in_runs (gc stale : option Z) (t mountedAt : Z)
    (steps : list Step) (hashedKey : string) :
  let w := exec (run_steps steps) (newQueryCache gc stale t) in
  let st := getSnapshot mountedAt hashedKey w in
  let r := useQuery_result st in
  result_error r = error st ∧
  (status st ≠ Idle → result_data r = data st) ∧
  (isError r = true ↔ is_Some (result_error r)) ∧
  (isLoading r = true ↔ status st = Loading) ∧
  (isSuccess r = true ↔ status st = Success ∨ status st = FirstSuccess) ∧
  (isSuccess r = true ↔ result_status r = Success) ∧
  result_status r ≠ FirstSuccess.
Proof.
  intros w st r.
  assert (error_ok st ∧ no_data_ok st) as [Herr Hdata].
  { unfold st, getSnapshot.
    destruct (cache w !! hashedKey) as [e |] eqn:He; cbn.
    - split.
      + by apply (run_error_ok gc stale t steps hashedKey e).
      + by apply (run_no_data_ok gc stale t steps hashedKey e).
    - split; [split; [done | by intros [? ?]] | by intros [? | ?]]. }
  unfold error_ok, no_data_ok in *. unfold r, useQuery_result.
  destruct (status st) eqn:Hst; cbn.
  all: repeat split; try done; try (by intros [? ?]); try (by intros [? | ?]);
    try (intros _; symmetry; apply Hdata; by eauto); eauto.
  all: try (destruct (error st) eqn:Heq; [| done];
            destruct Herr as [_ Herr]; by specialize (Herr (mk_is_Some _ _ eq_refl))).
  intros _. by apply Herr.
Qed.

(** ** More of the mutation protocol *)

Module MutationExtras.
Import Mutation MutationObs.

Ltac unfold_mutate :=
  cbv [run mutate try_catch call emit setState set_context get_context throw
       mbind mret X_bind X_ret xbind xret context events].

(** Run [mutate] symbolically, splitting on what each callback is and on
    what awaiting it gives. *)
Ltac run_mutate :=
  unfold_mutate; cbn;
  repeat (match goal with
          | |- context [match ?x with _ => _ end] =>
              lazymatch x with
              | context [match _ with _ => _ end] => fail
              | _ => destruct x eqn:?
              end
          end; cbn).

(** X17. The promise of [mutate] and the state of the hook agree.  When the
    call fulfils, it fulfils with what the mutation function resolved with
    and the hook is left in success with that value; when it rejects, the
    hook is left in error without data, and unless onError or onSettled
    threw, the rejection is the error of the state.  In particular a
    mutation whose function resolved but whose onSuccess or onSettled threw
    ends in error. *)
Theorem mutate_outcome (options : UseMutationOptions) (variables : Value) :
  let tr := (run options variables).1 in
  match (run options variables).2 with
  | Returns d =>
      mutationFn options variables = Returns d ∧
      last_state tr = Some (mkMutationState MSuccess d None)
  | Throws t =>
      ∃ e, last_state tr = Some (mkMutationState MError VUndefined (Some e)) ∧
           (never_throws_onError options → never_throws_onSettled options →
            t = ThrownError e)
  end.
Proof.
  destruct options as [fn om os oe ost].
  unfold never_throws_onError, never_throws_onSettled. cbn.
  run_mutate.
  all: try (split; reflexivity).
  all: eexists; (split; [reflexivity |]); intros HnoE HnoS; try reflexivity.
  all: try match goal with
       | H : ?cb ?e ?v ?c = Throws _ |- _ =>
           rewrite (HnoE cb e v c eq_refl) in H; discriminate H
       end.
  all: match goal with
       | H : ?cb ?d ?e ?v ?c = Throws _ |- _ =>
           rewrite (HnoS cb d e v c eq_refl) in H; discriminate H
       end.
Qed.

(** X18. The mutation function is called at most once in a run of
    [mutate], and not at all exactly when onMutate throws; in that case the
    hook never shows loading: the state goes straight to error with the
    thrown value, and the promise rejects. *)
Theorem mutationFn_at_most_once (options : UseMutationOptions) (variables : Value) :
  let tr := (run options variables).1 in
  (mutationFn_calls tr ≤ 1)%nat ∧
  (mutationFn_calls tr = 0%nat ↔ onMutate_throws options variables) ∧
  (∀ cb t, onMutate options = Some cb → cb variables = Throws t →
     (SetState (mkMutationState MLoading VUndefined None) ∉ tr) ∧
     last_state tr = Some (mkMutationState MError VUndefined (Some (coerceError t))) ∧
     ∃ t', (run options variables).2 = Throws t').
Proof.
  destruct options as [fn om os oe ost]. unfold onMutate_throws. cbn.
  run_mutate.
  all: split; [cbv; lia | split].
  all: lazymatch goal with
       | |- _ ↔ _ => split; [intros H0 | intros (cb & t' & Hcb & Hth)]
       | |- _ => intros cb t' Hcb Hth
       end.
  all: try (by (cbv in H0; discriminate H0)).
  all: try (do 2 eexists; split; [reflexivity | eassumption]).
  all: simplify_eq; try congruence; try reflexivity.
  all: match goal with
       | H1 : ?x = Throws ?a, H2 : ?x = Throws ?b |- _ =>
           assert (b = a) by congruence; subst b
       end.
  all: split; [| split; [reflexivity | by eauto]].
  all: intros Hin; repeat (apply elem_of_cons in Hin as [[=] | Hin]);
    by apply elem_of_nil in Hin.
Qed.

(** X19. Every callback of a run of [mutate] is given the variables of the
    call, and onSuccess, onError and onSettled are given the context
    onMutate returned ([undefined] without onMutate, or when it threw),
    also on the error path and when onSettled is called a second time. *)
Theorem mutate_threads_context (options : UseMutationOptions) (variables : Value) :
  Forall (called_with variables (context_of options variables))
    (run options variables).1.
Proof.
  destruct options as [fn om os oe ost]. unfold context_of. cbn.
  run_mutate.
  all: repeat constructor.
Qed.

End MutationExtras.

(** ** The facade *)

Module QueryClientProofs.
Section WithHashKey.
Context {QueryKey : Type} (hashKey : QueryKey → string).

(** X20. Round trip through the facade, for any hash function:
    [getQueryData] after [setQueryData] gives the data that was set, for
    the key itself and for every key with the same hash, the state read
    back is success at the time of the call without error, and the query
    exists; keys with another hash read what they read before. *)
Theorem setQueryData_getQueryData (w : World) (queryKey queryKey' : QueryKey)
    (d : Value) :
  let w' := exec (QueryClient.setQueryData hashKey queryKey d) w in
  (hashKey queryKey' = hashKey queryKey →
     eval (QueryClient.getQueryData hashKey queryKey') w' = d ∧
     eval (QueryClient.getQueryState hashKey queryKey') w'
       = Some (mkState Success d None (clock w)) ∧
     eval (QueryClient.hasQuery hashKey queryKey') w' = true) ∧
  (hashKey queryKey' ≠ hashKey queryKey →
     eval (QueryClient.getQueryData hashKey queryKey') w'
       = eval (QueryClient.getQueryData hashKey queryKey') w ∧
     eval (QueryClient.getQueryState hashKey queryKey') w'
       = eval (QueryClient.getQueryState hashKey queryKey') w).
Proof.
  intros w'.
  assert (cache w' = <[hashKey queryKey :=
            mkEntry (mkState Success d None (clock w))
              (cache w !! hashKey queryKey ≫= queryFn)]> (cache w)) as Hc.
  { unfold w', QueryClient.setQueryData, setData, exec. unfold_monad.
    unfold Date_now. unfold_monad. by rewrite setAndNotifySubscribers_effect. }
  unfold QueryClient.getQueryData, QueryClient.getQueryState, QueryClient.hasQuery,
    hasQuery, getCacheEntry, eval. unfold_monad. cbn. rewrite Hc.
  split.
  - intros ->. rewrite lookup_insert_eq. cbn. repeat split.
  - intros Hne. by rewrite lookup_insert_ne.
Qed.

End WithHashKey.

Lemma setQueryData_getQueryData_witness :
  let hashKey := λ k : list string, String.concat "," k in
  let w' := exec (QueryClient.setQueryData hashKey ["todos"; "1"] (VStr "data"))
              Scenario.fresh in
  (eval (QueryClient.getQueryData hashKey ["todos,1"]) w' = VStr "data" ∧
   eval (QueryClient.getQueryState hashKey ["todos,1"]) w'
     = Some (mkState Success (VStr "data") None (clock Scenario.fresh)) ∧
   eval (QueryClient.hasQuery hashKey ["todos,1"]) w' = true) ∧
  (eval (QueryClient.getQueryData hashKey ["todos"; "2"]) w'
     = eval (QueryClient.getQueryData hashKey ["todos"; "2"]) Scenario.fresh ∧
   eval (QueryClient.getQueryState hashKey ["todos"; "2"]) w'
     = eval (QueryClient.getQueryState hashKey ["todos"; "2"]) Scenario.fresh).
Proof.
  split.
  - apply (proj1 (setQueryData_getQueryData (λ k : list string, String.concat "," k)
                    Scenario.fresh ["todos"; "1"] ["todos,1"] (VStr "data"))).
    reflexivity.
  - apply (proj2 (setQueryData_getQueryData (λ k : list string, String.concat "," k)
                    Scenario.fresh ["todos"; "1"] ["todos"; "2"] (VStr "data"))).
    vm_compute. discriminate.
Defined.

End QueryClientProofs.
